(** * MultiJuicer: progress and score synchronisation

    A shallow embedding of the score calculator, the ranking engine and the
    long-poll reader of the balancer's [scoring] package, and of the
    progress-watchdog (webhook handler, reconciliation scheduler and worker,
    continue-code id list), with the properties the specification states
    about them. *)

From Stdlib Require Import ZArith Ascii String List Sorting.Sorted Lia.
From stdpp Require Import base list sorting strings gmap.

Local Open Scope Z_scope.

(** ** Go primitives *)

Module Go.

(** Go's [int] is 64 bits wide on the platforms the services are built for:
    arithmetic wraps around in two's complement. *)
Definition int_min : Z := - 2 ^ 63.
Definition int_max : Z := 2 ^ 63 - 1.

Definition wrap_int (z : Z) : Z := (z + 2 ^ 63) mod 2 ^ 64 - 2 ^ 63.

Definition int_add (a b : Z) : Z := wrap_int (a + b).
Definition int_mul (a b : Z) : Z := wrap_int (a * b).

(** [time.Time] as the values decoded from an annotation carry it: the
    instant (nanoseconds since the zero time, held in the [wall] and [ext]
    fields; there is no monotonic reading) and the identity of the
    [*Location] the value was decoded with ([0] stands for the nil pointer,
    which means UTC).  [After] and [Before] compare instants; [==] on the
    struct compares every field, the location pointer included. *)
Record Time := mkTime { instant : Z; loc : Z }.

Definition zeroTime : Time := mkTime 0 0.

Definition After (t u : Time) : bool := instant u <? instant t.
Definition Before (t u : Time) : bool := instant t <? instant u.
Definition time_eqb (t u : Time) : bool :=
  (instant t =? instant u) && (loc t =? loc u).

(** Indexing a [map[string]string] with a missing key yields [""]. *)
Definition index (m : gmap string string) (k : string) : string :=
  default "" (m !! k).

End Go.

(** ** Cluster resources *)

(** The part of [appsv1.Deployment] the services read and write. *)
Record Deployment := mkDeployment {
  Labels : gmap string string;
  Annotations : gmap string string;
  ReadyReplicas : Z
}.

Definition annChallenges : string := "multi-juicer.owasp-juice.shop/challenges".
Definition annContinueCodeFindIt : string :=
  "multi-juicer.owasp-juice.shop/continueCodeFindIt".
Definition annContinueCodeFixIt : string :=
  "multi-juicer.owasp-juice.shop/continueCodeFixIt".

(** ** The scoring package of the balancer *)

Module Scoring.
Import Go.

Record ChallengeProgress := mkChallengeProgress {
  Key : string;
  SolvedAt : Time
}.

Record TeamScore := mkTeamScore {
  Name : string;
  Score : Z;
  Position : Z;
  Challenges : list ChallengeProgress;
  LastUpdate : Time;
  InstanceReadiness : bool
}.

(** Modelled from the spec: [bundle.JuiceShopChallenge], whose declaration is
    in the bundle package; a catalog entry gives a challenge key its
    difficulty weight. *)
Record JuiceShopChallenge := mkJuiceShopChallenge {
  ChallengeKey : string;
  Difficulty : Z
}.

(** The lookup [NewScoringServiceWithInitialScores] builds: a later entry with
    the same key replaces an earlier one. *)
Definition challengesMapOf (juiceShopChallenges : list JuiceShopChallenge)
  : gmap string JuiceShopChallenge :=
  fold_left (fun m challenge => <[ChallengeKey challenge := challenge]> m)
            juiceShopChallenges ∅.

Section Calculator.

(** [json.Unmarshal] into a [[]ChallengeProgress]; [None] is a decoding
    error. *)
Variable unmarshal : string -> option (list ChallengeProgress).
(** The reading of [time.Now()]. *)
Variable now : Time.

(** One iteration of the loop over the solved challenges: the state is the
    running [score] and the [solvedChallengeNames] slice. *)
Definition scoreStep (challengesMap : gmap string JuiceShopChallenge)
    (st : Z * list ChallengeProgress) (challengeSolved : ChallengeProgress)
  : Z * list ChallengeProgress :=
  match challengesMap !! Key challengeSolved with
  | None => st
  | Some challenge =>
      (int_add (fst st) (int_mul (Difficulty challenge) 10),
       snd st ++ [challengeSolved])
  end.

Definition addBonus (continueCode : string) (score : Z) : Z :=
  if String.eqb continueCode "" then score else int_add score 50.

Definition calculateScore (teamDeployment : Deployment)
    (challengesMap : gmap string JuiceShopChallenge) : TeamScore :=
  let solvedChallengesString := index (Annotations teamDeployment) annChallenges in
  let team := index (Labels teamDeployment) "team" in
  let empty :=
    {| Name := team; Score := 0; Position := 0; Challenges := [];
       LastUpdate := now;
       InstanceReadiness := 0 <? ReadyReplicas teamDeployment |} in
  if String.eqb solvedChallengesString "" then empty
  else
    match unmarshal solvedChallengesString with
    | None => empty
    | Some solvedChallenges =>
        let '(score, solvedChallengeNames) :=
          fold_left (scoreStep challengesMap) solvedChallenges (0, []) in
        let score :=
          addBonus (index (Annotations teamDeployment) annContinueCodeFindIt) score in
        let score :=
          addBonus (index (Annotations teamDeployment) annContinueCodeFixIt) score in
        {| Name := team; Score := score; Position := 0;
           Challenges := solvedChallengeNames;
           LastUpdate := now;
           InstanceReadiness := 0 <? ReadyReplicas teamDeployment |}
    end.

(** The score as the specification words it: difficulty times ten for every
    solved entry found in the catalog, nothing for the others, and a flat 50
    for each bonus continue code that is a non-empty string. *)
Definition entryPoints (catalog : gmap string JuiceShopChallenge)
    (entry : ChallengeProgress) : Z :=
  match catalog !! Key entry with
  | Some challenge => Difficulty challenge * 10
  | None => 0
  end.

Definition bonusPoints (continueCode : string) : Z :=
  if String.eqb continueCode "" then 0 else 50.

Definition specScore (catalog : gmap string JuiceShopChallenge)
    (solved : list ChallengeProgress) (findIt fixIt : string) : Z :=
  foldr Z.add 0 (entryPoints catalog <$> solved)
  + bonusPoints findIt + bonusPoints fixIt.

End Calculator.

(** *** Ranking *)

Definition getLatestChallengeSolve (challenges : list ChallengeProgress) : Time :=
  fold_left
    (fun maxTime challenge =>
       if After (SolvedAt challenge) maxTime then SolvedAt challenge else maxTime)
    challenges zeroTime.

(** The [less] closure handed to [sort.Slice]. *)
Definition rankLess (a b : TeamScore) : bool :=
  if Score a =? Score b then
    let iTime := getLatestChallengeSolve (Challenges a) in
    let jTime := getLatestChallengeSolve (Challenges b) in
    if time_eqb iTime jTime then String.ltb (Name a) (Name b)
    else Before iTime jTime
  else Score b <? Score a.

(** The order as the specification words it: higher score first; on equal
    score the earlier latest solve first; on equal score and latest solves at
    the same instant, the smaller name first. *)
Definition specLess (a b : TeamScore) : bool :=
  if Score a =? Score b then
    let iTime := getLatestChallengeSolve (Challenges a) in
    let jTime := getLatestChallengeSolve (Challenges b) in
    if instant iTime =? instant jTime then String.ltb (Name a) (Name b)
    else instant iTime <? instant jTime
  else Score b <? Score a.

(** [sort.Slice] and [sort.Stable] are modelled by the insertion sort the
    sort package itself runs on short slices: each element in turn is moved
    left past every element it is [less] than.  [insertLess] works on the
    already sorted prefix held in reverse. *)
Section Sort.
Context {A : Type} (less : A -> A -> bool).

Fixpoint insertLess (x : A) (rprefix : list A) : list A :=
  match rprefix with
  | [] => [x]
  | e :: r => if less x e then e :: insertLess x r else x :: rprefix
  end.

Definition insertionSort (data : list A) : list A :=
  rev (fold_left (fun rprefix x => insertLess x rprefix) data []).

End Sort.

Definition withPosition (t : TeamScore) (position : Z) : TeamScore :=
  {| Name := Name t; Score := Score t; Position := position;
     Challenges := Challenges t; LastUpdate := LastUpdate t;
     InstanceReadiness := InstanceReadiness t |}.

(** The position loop.  [prev] is [sortedTeamScores[i-1]] (absent when
    [i = 0]), [i] the index of the head of [rest], [position] the loop
    variable.  [i + 1] is at most the length of a slice and does not wrap. *)
Fixpoint setPositions (prev : option TeamScore) (i : nat) (position : Z)
    (rest : list TeamScore) : list TeamScore :=
  match rest with
  | [] => []
  | t :: rest' =>
      let position' :=
        match prev with
        | Some p => if Score t <? Score p then Z.of_nat i + 1 else position
        | None => position
        end in
      withPosition t position' :: setPositions (Some t) (S i) position' rest'
  end.

(** [teamScores] is the sequence in which [range] yields the values of the
    map; Go leaves that order unspecified, so every permutation of the
    values can occur.  The slice holds the pointers the map holds, so the
    positions are written to the entries of the map as well; the result here
    is the returned sequence. *)
Definition sortTeamsByScoreAndCalculatePositions (teamScores : list TeamScore)
  : list TeamScore :=
  setPositions None 0 1 (insertionSort rankLess teamScores).

Definition rangeOver (m : gmap string TeamScore) (teamScores : list TeamScore) : Prop :=
  teamScores ≡ₚ (map_to_list m).*2.

(** Scores do not increase along a sequence. *)
Definition scoreDescending (a b : TeamScore) : Prop := Score b <= Score a.

(** The latest solves of two teams were decoded in the same location, and
    those of all teams of a sequence were. *)
Definition sameLocation (a b : TeamScore) : Prop :=
  loc (getLatestChallengeSolve (Challenges a))
  = loc (getLatestChallengeSolve (Challenges b)).

Definition normalised (teamScores : list TeamScore) : Prop :=
  forall a b, a ∈ teamScores -> b ∈ teamScores -> sameLocation a b.

(** *** Long-poll read *)

(** Durations in nanoseconds, as [time.Duration] counts them. *)
Definition maxWaitTime : Z := 25 * 1000000000.
Definition tickInterval : Z := 50 * 1000000.

(** What the reader's goroutine can observe while it waits; times are
    nanoseconds elapsed since the call.  [lastUpdateAt] and
    [currentScoresSortedAt] are the two fields of the service as the watcher
    goroutine leaves them at each moment, [ctxDoneAt] the moment the caller's
    context is cancelled (if ever), and [pick n] resolves the choice [select]
    makes at the [n]-th iteration when several channels are ready. *)
Record PollEnv := mkPollEnv {
  lastUpdateAt : Z -> Time;
  currentScoresSortedAt : Z -> list TeamScore;
  ctxDoneAt : option Z;
  pick : nat -> nat
}.

Inductive SelectCase := TickerC | TimeoutC | CtxDone.

Definition earliest (nextTick : Z) (done : option Z) : Z :=
  let t := Z.min nextTick maxWaitTime in
  match done with
  | Some d => Z.min t (Z.max 0 d)
  | None => t
  end.

Definition readyCases (nextTick : Z) (done : option Z) (wake : Z) : list SelectCase :=
  (if nextTick <=? wake then [TickerC] else [])
  ++ (if maxWaitTime <=? wake then [TimeoutC] else [])
  ++ match done with
     | Some d => if Z.max 0 d <=? wake then [CtxDone] else []
     | None => []
     end.

Definition choose (n : nat) (ready : list SelectCase) : SelectCase :=
  nth (n mod length ready) ready TimeoutC.

(** The [for { select { ... } }] loop: the goroutine sleeps until the first
    channel becomes ready; a tick that sees no newer update starts the next
    iteration.  The result is the returned slice ([None] for [nil]) and the
    moment of the return; the outer [None] is an exhausted [fuel]. *)
Fixpoint waitLoop (fuel : nat) (env : PollEnv) (lastSeenUpdate : Time)
    (n : nat) (nextTick : Z) : option (option (list TeamScore) * Z) :=
  match fuel with
  | O => None
  | S fuel' =>
      let wake := earliest nextTick (ctxDoneAt env) in
      match choose (pick env n) (readyCases nextTick (ctxDoneAt env) wake) with
      | TickerC =>
          if After (lastUpdateAt env wake) lastSeenUpdate
          then Some (Some (currentScoresSortedAt env wake), wake)
          else waitLoop fuel' env lastSeenUpdate (S n) (nextTick + tickInterval)
      | TimeoutC => Some (None, wake)
      | CtxDone => Some (None, wake)
      end
  end.

(** At most [maxWaitTime / tickInterval] ticks precede the timeout, so the
    loop runs at most that many iterations plus two. *)
Definition pollFuel : nat := Z.to_nat (maxWaitTime / tickInterval) + 2.

Definition WaitForUpdatesNewerThan (env : PollEnv) (lastSeenUpdate : Time)
  : option (option (list TeamScore) * Z) :=
  if After (lastUpdateAt env 0) lastSeenUpdate
  then Some (Some (currentScoresSortedAt env 0), 0)
  else waitLoop pollFuel env lastSeenUpdate 0 tickInterval.

(** The moment the wait ends when no update arrives: the timeout, or the
    cancellation of the context when that comes first. *)
Definition deadline (env : PollEnv) : Z :=
  match ctxDoneAt env with
  | Some d => Z.min maxWaitTime (Z.max 0 d)
  | None => maxWaitTime
  end.

(** *** Comparing scores *)

(** The loop of [EqualsIgnoringLastUpdate] over the indices of
    [t.Challenges]; [None] is the panic of an index out of range in
    [other.Challenges]. *)
Fixpoint keysEqualFrom (i : nat) (challenges other : list ChallengeProgress)
  : option bool :=
  match challenges with
  | [] => Some true
  | challenge :: rest =>
      match other !! i with
      | None => None
      | Some otherChallenge =>
          if String.eqb (Key challenge) (Key otherChallenge)
          then keysEqualFrom (S i) rest other
          else Some false
      end
  end.

Definition EqualsIgnoringLastUpdate (t other : TeamScore) : option bool :=
  if negb (String.eqb (Name t) (Name other)) then Some false
  else if negb (Score t =? Score other) then Some false
  else if negb (Position t =? Position other) then Some false
  else if negb (Nat.eqb (length (Challenges t)) (length (Challenges other)))
  then Some false
  else
    match keysEqualFrom 0 (Challenges t) (Challenges other) with
    | Some true =>
        Some (Bool.eqb (InstanceReadiness t) (InstanceReadiness other))
    | result => result
    end.

(** The number of teams of a sequence with a score above [score]. *)
Definition countHigher (score : Z) (teamScores : list TeamScore) : Z :=
  Z.of_nat (length (filter (fun t => score < Score t) teamScores)).

(** *** The score cache *)

Record ScoringService := mkScoringService {
  currentScores : gmap string TeamScore;
  currentScoresSorted : list TeamScore;
  lastUpdate : Time;
  challengesMap : gmap string JuiceShopChallenge
}.

(** [sortTeamsByScoreAndCalculatePositions] on the entries of the map, each
    value with the key it is stored under: the slice is filled with the
    pointers of the map, so the position written to an element of the slice
    is written to the entry of the map. *)
Definition rankEntries (entries : list (string * TeamScore))
  : list (string * TeamScore) :=
  let sorted := insertionSort (fun a b => rankLess (snd a) (snd b)) entries in
  zip (fst <$> sorted) (setPositions None 0 1 (snd <$> sorted)).

Section Service.

Variable unmarshal : string -> option (list ChallengeProgress).
(** The order in which [range] yields the entries of a map. *)
Variable rangeOrder : gmap string TeamScore -> list (string * TeamScore).

(** The map and the slice after a call of
    [sortTeamsByScoreAndCalculatePositions] on the map. *)
Definition rerank (scores : gmap string TeamScore)
  : gmap string TeamScore * list TeamScore :=
  let ranked := rankEntries (rangeOrder scores) in
  (list_to_map ranked, snd <$> ranked).

(** The constructor assigns the lookup of its bundle to the package variable
    [cachedChallengesMap] and stores the same map in the service: the result
    is the service and the new value of the package variable.  A later call
    replaces the package variable; the [challengesMap] of a service built
    earlier stays as it is. *)
Definition NewScoringServiceWithInitialScores
    (juiceShopChallenges : list JuiceShopChallenge)
    (initialScores : gmap string TeamScore) (now : Time)
  : ScoringService * gmap string JuiceShopChallenge :=
  let cachedChallengesMap := challengesMapOf juiceShopChallenges in
  ({| currentScores := fst (rerank initialScores);
      currentScoresSorted := snd (rerank initialScores);
      lastUpdate := now;
      challengesMap := cachedChallengesMap |},
   cachedChallengesMap).

Definition NewScoringService (juiceShopChallenges : list JuiceShopChallenge)
    (now : Time) : ScoringService * gmap string JuiceShopChallenge :=
  NewScoringServiceWithInitialScores juiceShopChallenges ∅ now.

Definition GetScoreForTeam (s : ScoringService) (team : string) : option TeamScore :=
  currentScores s !! team.

Inductive WatchEvent :=
| Added (deployment : Deployment)
| Modified (deployment : Deployment)
| Deleted (deployment : Deployment)
| OtherEvent.

(** The body of the loop of [startScoringWatcher] for one event.
    [cachedChallengesMap] is the value of the package variable when the event
    is handled: the watcher scores the deployment with it, not with the
    [challengesMap] of the service it runs on.  [calculatedAt] is the reading
    of the clock in [calculateScore] and [updatedAt] the one taken under the
    mutex; [None] is a panic. *)
Definition handleEvent (cachedChallengesMap : gmap string JuiceShopChallenge)
    (calculatedAt updatedAt : Time) (s : ScoringService)
    (event : WatchEvent) : option ScoringService :=
  let update (scores : gmap string TeamScore) :=
    {| currentScores := fst (rerank scores);
       currentScoresSorted := snd (rerank scores);
       lastUpdate := updatedAt;
       challengesMap := challengesMap s |} in
  let addedOrModified (deployment : Deployment) :=
    let score := calculateScore unmarshal calculatedAt deployment cachedChallengesMap in
    let store := Some (update (<[Name score := score]> (currentScores s))) in
    match currentScores s !! Name score with
    | Some currentTeamScore =>
        match EqualsIgnoringLastUpdate currentTeamScore score with
        | None => None
        | Some true => Some s
        | Some false => store
        end
    | None => store
    end in
  match event with
  | Added deployment => addedOrModified deployment
  | Modified deployment => addedOrModified deployment
  | Deleted deployment =>
      Some (update (delete (index (Labels deployment) "team") (currentScores s)))
  | OtherEvent => Some s
  end.

(** The events a watcher receives until its channel is closed, each with
    the value of the package variable [cachedChallengesMap] and the two
    readings of the clock at the moment it is handled. *)
Fixpoint startScoringWatcher (s : ScoringService)
    (events : list (gmap string JuiceShopChallenge * Time * Time * WatchEvent))
  : option ScoringService :=
  match events with
  | [] => Some s
  | (cachedChallengesMap, calculatedAt, updatedAt, event) :: later =>
      match handleEvent cachedChallengesMap calculatedAt updatedAt s event with
      | None => None
      | Some s' => startScoringWatcher s' later
      end
  end.

(** [StartingScoringWorker] on the watches it opens until the context is
    cancelled: a watch that cannot be opened ([None]) is a panic, a watch
    whose channel is closed is followed by the next one. *)
Fixpoint StartingScoringWorker (s : ScoringService)
    (watches :
       list (option (list (gmap string JuiceShopChallenge * Time * Time * WatchEvent))))
  : option ScoringService :=
  match watches with
  | [] => Some s
  | None :: _ => None
  | Some events :: later =>
      match startScoringWatcher s events with
      | None => None
      | Some s' => StartingScoringWorker s' later
      end
  end.

(** [CalculateAndCacheScoreBoard] on the result of the [List] call ([inl]
    is its error; each deployment comes with the reading of the clock in its
    [calculateScore]): the error returned, if any, and the service. *)
Definition CalculateAndCacheScoreBoard (s : ScoringService)
    (juiceShops : string + list (Time * Deployment))
  : option string * ScoringService :=
  match juiceShops with
  | inl err => (Some err, s)
  | inr items =>
      let scores :=
        fold_left
          (fun scores '(calculatedAt, juiceShop) =>
             let score := calculateScore unmarshal calculatedAt juiceShop (challengesMap s) in
             <[Name score := score]> scores)
          items (currentScores s) in
      (None,
       {| currentScores := fst (rerank scores);
          currentScoresSorted := snd (rerank scores);
          lastUpdate := lastUpdate s;
          challengesMap := challengesMap s |})
  end.

End Service.

(** A value of the map with the position it has among the values. *)
Definition rankedIn (scores : gmap string TeamScore) (t : TeamScore) : TeamScore :=
  withPosition t (1 + countHigher (Score t) (snd <$> map_to_list scores)).

(** The ranked slice holds the values of the map, and every value of the map
    has the position it has among them. *)
Definition cacheConsistent (s : ScoringService) : Prop :=
  currentScoresSorted s ≡ₚ snd <$> map_to_list (currentScores s)
  /\ forall team t, currentScores s !! team = Some t ->
       t = rankedIn (currentScores s) t.

(** *** Long-poll read of one team *)

(** As [PollEnv], with the entry of the team in [currentScores] as the
    watcher goroutine leaves it at each moment. *)
Record TeamPollEnv := mkTeamPollEnv {
  teamScoreAt : Z -> option TeamScore;
  teamCtxDoneAt : option Z;
  teamPick : nat -> nat
}.

Definition newerScore (score : option TeamScore) (lastSeenUpdate : Time)
  : option TeamScore :=
  match score with
  | Some score => if After (LastUpdate score) lastSeenUpdate then Some score else None
  | None => None
  end.

Fixpoint waitTeamLoop (fuel : nat) (env : TeamPollEnv) (lastSeenUpdate : Time)
    (n : nat) (nextTick : Z) : option (option TeamScore * Z) :=
  match fuel with
  | O => None
  | S fuel' =>
      let wake := earliest nextTick (teamCtxDoneAt env) in
      match choose (teamPick env n) (readyCases nextTick (teamCtxDoneAt env) wake) with
      | TickerC =>
          match newerScore (teamScoreAt env wake) lastSeenUpdate with
          | Some score => Some (Some score, wake)
          | None =>
              waitTeamLoop fuel' env lastSeenUpdate (S n) (nextTick + tickInterval)
          end
      | TimeoutC => Some (None, wake)
      | CtxDone => Some (None, wake)
      end
  end.

Definition WaitForTeamUpdatesNewerThan (env : TeamPollEnv) (lastSeenUpdate : Time)
  : option (option TeamScore * Z) :=
  match newerScore (teamScoreAt env 0) lastSeenUpdate with
  | Some score => Some (Some score, 0)
  | None => waitTeamLoop pollFuel env lastSeenUpdate 0 tickInterval
  end.

Definition teamDeadline (env : TeamPollEnv) : Z :=
  match teamCtxDoneAt env with
  | Some d => Z.min maxWaitTime (Z.max 0 d)
  | None => maxWaitTime
  end.

End Scoring.

(** ** The progress watchdog *)

Module Watchdog.
Import Go.

(** An entry of the persisted solved-challenge list; both fields are strings
    ([SolvedAt] is filled from [Challenge.UpdatedAt] and from the webhook's
    [IssuedOn]). *)
Record ChallengeStatus := mkChallengeStatus {
  Key : string;
  SolvedAt : string
}.

Record ProgressUpdateJobs := mkJob {
  Team : string;
  LastChallengeProgress : list ChallengeStatus
}.

Record JuiceShopChallenge := mkJuiceShopChallenge { ChallengeKey : string }.

Record ChallengeProgressWithCodes := mkProgress {
  Challenges : list ChallengeStatus;
  ContinueCodeFindIt : string;
  ContinueCodeFixIt : string
}.

(** The cluster's deployments by name. *)
Abbreviation Cluster := (gmap string Deployment).

Definition deploymentName (team : string) : string :=
  String.append "juiceshop-" team.

(** *** Challenge ids and the continue code *)

(** The loop of [createChallengeIdLookup] over the decoded catalog file,
    [i] being the index of the head of [challenges]. *)
Fixpoint fillChallengeIdLookup (i : nat) (challenges : list JuiceShopChallenge)
    (challengeIdLookup : gmap string Z) : gmap string Z :=
  match challenges with
  | [] => challengeIdLookup
  | challenge :: rest =>
      fillChallengeIdLookup (S i) rest
        (<[ChallengeKey challenge := Z.of_nat i + 1]> challengeIdLookup)
  end.

Definition createChallengeIdLookup (challenges : list JuiceShopChallenge)
  : gmap string Z :=
  fillChallengeIdLookup 0 challenges ∅.

(** The [challengeIds] slice [GenerateContinueCode] hands to the encoder;
    indexing the lookup with a missing key yields [0]. *)
Definition challengeIds (challengeIdLookup : gmap string Z)
    (challenges : list ChallengeStatus) : list Z :=
  fold_left
    (fun ids challenge => ids ++ [default 0 (challengeIdLookup !! Key challenge)])
    challenges [].

(** The id list as the specification words it: the ids of the recognised
    keys only. *)
Definition recognisedIds (challengeIdLookup : gmap string Z)
    (challenges : list ChallengeStatus) : list Z :=
  omap (fun challenge => challengeIdLookup !! Key challenge) challenges.

(** [encode] is [hashids.Encode] with the fixed salt, alphabet and minimum
    length; [None] is its error. *)
Definition GenerateContinueCode (encode : list Z -> option string)
    (challengeIdLookup : gmap string Z) (challenges : list ChallengeStatus)
  : option string :=
  encode (challengeIds challengeIdLookup challenges).

(** *** The comparator *)

Inductive UpdateState := ApplyCode | UpdateCache | NoOp.

Definition solvedIn (statuses : list ChallengeStatus) (key : string) : bool :=
  existsb (fun status => String.eqb (Key status) key) statuses.

(** Modelled from the spec: [CompareChallengeStates], which the worker calls
    and which is defined in another file of the package.  The comparison is
    by membership of solved keys: [ApplyCode] when the last-known progress holds
    a solved key the live progress lacks, [UpdateCache] when the live
    progress holds a key the last-known one lacks, [NoOp] when neither. *)
Definition CompareChallengeStates (currentSolvedChallenges
    lastSolvedChallenges : list ChallengeStatus) : UpdateState :=
  if negb (forallb (fun status => solvedIn currentSolvedChallenges (Key status))
                   lastSolvedChallenges)
  then ApplyCode
  else if negb (forallb (fun status => solvedIn lastSolvedChallenges (Key status))
                        currentSolvedChallenges)
  then UpdateCache
  else NoOp.

Section Persistence.

(** [json.Marshal] of a status list, and [json.Unmarshal] into one: the
    decoded slice and whether an error was returned.  The callers log the
    error and go on with the slice. *)
Variable marshal : list ChallengeStatus -> string.
Variable unmarshal : string -> list ChallengeStatus * bool.

(** Modelled from the spec: [PersistProgress], which is defined in another
    file of the package; it writes the solved-challenge list (as JSON) and
    the two bonus continue codes back to the annotations of the team's
    deployment.  A deployment that does not exist cannot be updated. *)
Definition PersistProgress (cluster : Cluster) (team : string)
    (solvedChallenges : list ChallengeStatus)
    (continueCodeFindIt continueCodeFixIt : string) : Cluster :=
  match cluster !! deploymentName team with
  | None => cluster
  | Some deployment =>
      <[deploymentName team :=
          {| Labels := Labels deployment;
             Annotations :=
               <[annContinueCodeFixIt := continueCodeFixIt]>
                 (<[annContinueCodeFindIt := continueCodeFindIt]>
                    (<[annChallenges := marshal solvedChallenges]>
                       (Annotations deployment)));
             ReadyReplicas := ReadyReplicas deployment |}]> cluster
  end.

(** Modelled from the spec: the [Less] of [ChallengeStatuses], declared with
    the type in another file of the package (stable-sort by the solved-at
    timestamp, a string). *)
Definition statusLess (a b : ChallengeStatus) : bool :=
  String.ltb (SolvedAt a) (SolvedAt b).

Definition sortStable (statuses : list ChallengeStatus) : list ChallengeStatus :=
  Scoring.insertionSort statusLess statuses.

(** The solved-at of [a] is not after the one of [b], as strings. *)
Definition notLater (a b : ChallengeStatus) : Prop :=
  String.leb (SolvedAt a) (SolvedAt b) = true.

(** The list persisted for a deployment, as the services read it back. *)
Definition persistedChallenges (deployment : Deployment) : list ChallengeStatus :=
  fst (unmarshal (default "[]" (Annotations deployment !! annChallenges))).

(** *** Scheduler *)

(** The jobs of one cycle: one per instance with exactly one ready replica. *)
Definition jobsOfCycle (items : list Deployment) : list ProgressUpdateJobs :=
  flat_map
    (fun instance =>
       if ReadyReplicas instance =? 1
       then [ {| Team := index (Labels instance) "team";
                 LastChallengeProgress :=
                   fst (unmarshal (index (Annotations instance) annChallenges)) |} ]
       else [])
    items.

Inductive SchedulerState := Scheduling | Panicked.

(** The scheduler loop on the results of its successive [List] calls, one
    per cycle ([None] is a failed call): the jobs sent to the channel, and
    whether the goroutine is still in the loop once the given cycles are
    over. *)
Fixpoint createProgressUpdateJobs (cycles : list (option (list Deployment)))
  : list ProgressUpdateJobs * SchedulerState :=
  match cycles with
  | [] => ([], Scheduling)
  | None :: _ => ([], Panicked)
  | Some items :: later =>
      let '(jobs, state) := createProgressUpdateJobs later in
      (jobsOfCycle items ++ jobs, state)
  end.

(** *** Worker *)

(** A [PUT .../apply/<code>] sent to the instance; [codeType] is [""] for
    the main continue code. *)
Record ApplyRequest := mkApply { codeType : string; code : string }.

Definition applyChallengeProgress (encode : list Z -> option string)
    (challengeIdLookup : gmap string Z)
    (challengeProgress : list ChallengeStatus) : list ApplyRequest :=
  match GenerateContinueCode encode challengeIdLookup challengeProgress with
  | None => []
  | Some continueCode => [mkApply "" continueCode]
  end.

(** One iteration of [workOnProgressUpdates].  [fetched] is what the first
    [getCurrentChallengeProgress] returns ([None] is an error) and
    [refetched] what the one after applying the codes returns. *)
Definition workOnProgressUpdate (encode : list Z -> option string)
    (challengeIdLookup : gmap string Z) (cluster : Cluster)
    (job : ProgressUpdateJobs)
    (fetched refetched : option ChallengeProgressWithCodes)
  : list ApplyRequest * Cluster :=
  let team := Team job in
  let lastChallengeProgress := LastChallengeProgress job in
  let '(lastFindItCode, lastFixItCode) :=
    match cluster !! deploymentName team with
    | Some deployment =>
        (index (Annotations deployment) annContinueCodeFindIt,
         index (Annotations deployment) annContinueCodeFixIt)
    | None => ("", "")
    end in
  match fetched with
  | None => ([], cluster)
  | Some currentProgress =>
      match CompareChallengeStates (Challenges currentProgress) lastChallengeProgress with
      | ApplyCode =>
          let requests :=
            applyChallengeProgress encode challengeIdLookup lastChallengeProgress
            ++ (if String.eqb lastFindItCode "" then []
                else [mkApply "find-it" lastFindItCode])
            ++ (if String.eqb lastFixItCode "" then []
                else [mkApply "fix-it" lastFixItCode]) in
          match refetched with
          | None => (requests, cluster)
          | Some currentProgress =>
              (requests,
               PersistProgress cluster team (Challenges currentProgress)
                 (ContinueCodeFindIt currentProgress)
                 (ContinueCodeFixIt currentProgress))
          end
      | UpdateCache =>
          ([], PersistProgress cluster team (Challenges currentProgress)
                 (ContinueCodeFindIt currentProgress)
                 (ContinueCodeFixIt currentProgress))
      | NoOp =>
          if negb (String.eqb (ContinueCodeFindIt currentProgress) lastFindItCode)
             || negb (String.eqb (ContinueCodeFixIt currentProgress) lastFixItCode)
          then ([], PersistProgress cluster team (Challenges currentProgress)
                      (ContinueCodeFindIt currentProgress)
                      (ContinueCodeFixIt currentProgress))
          else ([], cluster)
      end
  end.

(** *** Webhook *)

Record JuiceShopWebhookSolution := mkSolution {
  Challenge : string;
  IssuedOn : string
}.

Record JuiceShopWebhook := mkWebhook { Solution : JuiceShopWebhookSolution }.

Record Response := mkResponse { StatusCode : Z; Body : string }.

(** [WriteHeader(200)] followed by [Write("ok")], and [http.Error], which
    ends the message with a newline. *)
Definition ok : Response := mkResponse 200 "ok".

Definition httpError (message : string) (statusCode : Z) : Response :=
  mkResponse statusCode
    (String.append message (String (Ascii.ascii_of_nat 10) EmptyString)).

Definition badRequest : Response := httpError "invalid json" 400.
Definition internalServerError : Response := httpError "Internal Server Error" 500.

(** The handler of [POST /team/{team}/webhook].  [body] is the decoded
    request body ([None] when it is not valid JSON) and [currentProgress]
    what [GetCurrentChallengeProgress] returns for the team when the handler
    calls it ([None] is an error). *)
Definition webhookHandler (cluster : Cluster) (team : string)
    (body : option JuiceShopWebhook)
    (currentProgress : option ChallengeProgressWithCodes)
  : Response * Cluster :=
  match body with
  | None => (badRequest, cluster)
  | Some webhook =>
      match cluster !! deploymentName team with
      | None => (internalServerError, cluster)
      | Some deployment =>
          let continueCodeFindIt :=
            index (Annotations deployment) annContinueCodeFindIt in
          let continueCodeFixIt :=
            index (Annotations deployment) annContinueCodeFixIt in
          let challengeStatus := persistedChallenges deployment in
          if String.prefix "find-it-" (Challenge (Solution webhook)) then
            match currentProgress with
            | None => (internalServerError, cluster)
            | Some currentProgress =>
                (ok, PersistProgress cluster team challengeStatus
                       (ContinueCodeFindIt currentProgress) continueCodeFixIt)
            end
          else if String.prefix "fix-it-" (Challenge (Solution webhook)) then
            match currentProgress with
            | None => (internalServerError, cluster)
            | Some currentProgress =>
                (ok, PersistProgress cluster team challengeStatus
                       continueCodeFindIt (ContinueCodeFixIt currentProgress))
            end
          else if solvedIn challengeStatus (Challenge (Solution webhook)) then
            (ok, cluster)
          else
            let challengeStatus :=
              sortStable
                (challengeStatus
                 ++ [ {| Key := Challenge (Solution webhook);
                         SolvedAt := IssuedOn (Solution webhook) |} ]) in
            (ok, PersistProgress cluster team challengeStatus
                   continueCodeFindIt continueCodeFixIt)
      end
  end.

End Persistence.

(** *** The instance API *)

Module Api.

Record Challenge := mkChallenge {
  Id : Z;
  Name : string;
  Key : string;
  Description : string;
  Category : string;
  Difficulty : Z;
  Solved : bool;
  UpdatedAt : string
}.

Record ChallengeResponse := mkChallengeResponse {
  Status : string;
  Data : list Challenge
}.

(** What a request to the instance gives once [http.DefaultClient.Do] has
    returned without error: the status code and the decoded body ([None]
    when the body does not decode). *)
Record Answer (A : Type) := mkAnswer {
  AnswerStatus : Z;
  AnswerBody : option A
}.

End Api.

Arguments Api.mkAnswer {A} _ _.
Arguments Api.AnswerStatus {A} _.
Arguments Api.AnswerBody {A} _.


(** The loop of [getCurrentChallengeStatuses] over the challenges of the
    response. *)
Definition solvedStatuses (data : list Api.Challenge) : list ChallengeStatus :=
  fold_left
    (fun challengeStatus challenge =>
       if Api.Solved challenge
       then challengeStatus
            ++ [ {| Key := Api.Key challenge; SolvedAt := Api.UpdatedAt challenge |} ]
       else challengeStatus)
    data [].

Definition getCurrentChallengeStatuses
    (res : option (Api.Answer Api.ChallengeResponse))
  : option (list ChallengeStatus) :=
  match res with
  | None => None
  | Some res =>
      if Api.AnswerStatus res =? 200 then
        match Api.AnswerBody res with
        | None => None
        | Some challengeResponse =>
            Some (sortStable (solvedStatuses (Api.Data challengeResponse)))
        end
      else None
  end.


End Watchdog.

(** ** Fixtures *)

Module Fixtures.
Import Go.

(** A decoder that knows a few documents, standing in for [json.Unmarshal]
    where a concrete one is needed. *)
Definition x10 : Scoring.ChallengeProgress :=
  Scoring.mkChallengeProgress "X10" (mkTime 63850154400000000000 0).

Definition progressDocs : list (string * list Scoring.ChallengeProgress) :=
  [ ("doc:X10", [x10]); ("doc:none", []) ].

Definition unmarshalProgress (s : string) : option (list Scoring.ChallengeProgress) :=
  snd <$> find (fun doc => String.eqb (fst doc) s) progressDocs.

Definition catalogX10 : gmap string Scoring.JuiceShopChallenge :=
  Scoring.challengesMapOf [Scoring.mkJuiceShopChallenge "X10" 3].

Definition instance (annotations : list (string * string)) (ready : Z) : Deployment :=
  {| Labels := {[ "team" := "owasp" ]};
     Annotations := list_to_map annotations;
     ReadyReplicas := ready |}.

Definition solvedX10 : Deployment :=
  instance [(annChallenges, "doc:X10")] 1.

Definition solvedX10WithFindIt : Deployment :=
  instance [(annChallenges, "doc:X10"); (annContinueCodeFindIt, "yXjv6Z5jWJ")] 1.

Definition brokenAnnotation : Deployment :=
  instance [(annChallenges, "{not json"); (annContinueCodeFindIt, "yXjv6Z5jWJ")] 2.

(** Teams for the ranking. *)
Definition team (name : string) (score : Z) (solves : list Time) : Scoring.TeamScore :=
  {| Scoring.Name := name; Scoring.Score := score; Scoring.Position := 0;
     Scoring.Challenges := Scoring.mkChallengeProgress "scoreBoardChallenge" <$> solves;
     Scoring.LastUpdate := zeroTime; Scoring.InstanceReadiness := true |}.

(** Two teams whose latest solve is the same instant, one decoded from the
    timestamp [2024-05-01T10:00:00Z] (nil location), the other from
    [2024-05-01T12:00:00+02:00] (the location of a fixed zone). *)
Definition tieUTC : Scoring.TeamScore :=
  team "alpha" 10 [mkTime 63850154400000000000 0].
Definition tieOffset : Scoring.TeamScore :=
  team "beta" 10 [mkTime 63850154400000000000 1].

Definition board : list Scoring.TeamScore :=
  [ team "d" 10 [mkTime 500 0]; team "a" 30 [mkTime 900 0];
    team "c" 10 [mkTime 400 0; mkTime 200 0]; team "b" 30 [mkTime 900 0];
    team "e" 0 [] ].

(** A cache that was last updated at instant 100 and is not updated again. *)
Definition quietCache (done : option Z) : Scoring.PollEnv :=
  {| Scoring.lastUpdateAt := fun _ => mkTime 100 0;
     Scoring.currentScoresSortedAt :=
       fun _ => Scoring.sortTeamsByScoreAndCalculatePositions board;
     Scoring.ctxDoneAt := done;
     Scoring.pick := fun n => n |}.

(** A codec for status lists, standing in for [encoding/json] where a
    concrete one is needed: entries [key@solvedAt] separated by [;], and
    [[]] for the empty list. *)
Fixpoint fields (sep : Ascii.ascii) (s : string) : list string :=
  match s with
  | EmptyString => [EmptyString]
  | String c rest =>
      if Ascii.eqb c sep then EmptyString :: fields sep rest
      else match fields sep rest with
           | f :: fs => String c f :: fs
           | [] => [String c EmptyString]
           end
  end.

Definition marshalStatuses (statuses : list Watchdog.ChallengeStatus) : string :=
  match statuses with
  | [] => "[]"
  | _ =>
      String.concat ";"
        (map (fun status =>
                String.append (Watchdog.Key status)
                  (String.append "@" (Watchdog.SolvedAt status)))
             statuses)
  end.

Fixpoint decodeEntries (entries : list string)
  : list Watchdog.ChallengeStatus * bool :=
  match entries with
  | [] => ([], false)
  | entry :: rest =>
      match fields "@"%char entry with
      | [key; solvedAt] =>
          let '(statuses, err) := decodeEntries rest in
          (Watchdog.mkChallengeStatus key solvedAt :: statuses, err)
      | _ => ([], true)
      end
  end.

Definition unmarshalStatuses (s : string) : list Watchdog.ChallengeStatus * bool :=
  if String.eqb s "[]" then ([], false) else decodeEntries (fields ";"%char s).

Definition scoreBoard : Watchdog.ChallengeStatus :=
  Watchdog.mkChallengeStatus "scoreBoardChallenge" "2024-05-01T10:00:00.000Z".
Definition domXss : Watchdog.ChallengeStatus :=
  Watchdog.mkChallengeStatus "localXssChallenge" "2024-05-01T11:30:00.000Z".
Definition errorHandling : Watchdog.ChallengeStatus :=
  Watchdog.mkChallengeStatus "errorHandlingChallenge" "2024-05-01T09:15:00.000Z".
Definition notInCatalog : Watchdog.ChallengeStatus :=
  Watchdog.mkChallengeStatus "retiredChallenge" "2024-05-01T12:00:00.000Z".

Definition catalogFile : list Watchdog.JuiceShopChallenge :=
  [ Watchdog.mkJuiceShopChallenge "scoreBoardChallenge";
    Watchdog.mkJuiceShopChallenge "localXssChallenge";
    Watchdog.mkJuiceShopChallenge "errorHandlingChallenge" ].

(** A cluster with the deployment of team [owasp], which has solved the
    score-board challenge and holds a FixIt code. *)
Definition owaspDeployment : Deployment :=
  instance [ (annChallenges, marshalStatuses [scoreBoard]);
             (annContinueCodeFixIt, "fixItCode1") ] 1.

Definition owaspCluster : gmap string Deployment :=
  {[ "juiceshop-owasp"%string := owaspDeployment ]}.

Definition solved (key issuedOn : string) : Watchdog.JuiceShopWebhook :=
  Watchdog.mkWebhook (Watchdog.mkSolution key issuedOn).

Definition liveProgress : Watchdog.ChallengeProgressWithCodes :=
  Watchdog.mkProgress [scoreBoard] "findItCode2" "fixItCode2".

(** An empty cache, and an iteration order for its map. *)
Definition emptyCache : Scoring.ScoringService :=
  {| Scoring.currentScores := ∅;
     Scoring.currentScoresSorted := [];
     Scoring.lastUpdate := zeroTime;
     Scoring.challengesMap := catalogX10 |}.

Definition inOrder (scores : gmap string Scoring.TeamScore)
  : list (string * Scoring.TeamScore) :=
  map_to_list scores.



Definition scoreBoardSolved : option (Watchdog.Api.Answer Watchdog.Api.ChallengeResponse) :=
  Some (Watchdog.Api.mkAnswer 200
          (Some (Watchdog.Api.mkChallengeResponse "success"
                   [ Watchdog.Api.mkChallenge 1 "Score Board" "scoreBoardChallenge"
                       "Find the score board" "Miscellaneous" 1 true
                       "2024-05-01T10:00:00.000Z";
                     Watchdog.Api.mkChallenge 2 "DOM XSS" "localXssChallenge"
                       "Perform a DOM XSS attack" "XSS" 1 false
                       "2024-04-30T08:00:00.000Z" ]))).

(** A cache that holds the ranked score of team [owasp]. *)
Definition owaspScore : Scoring.TeamScore :=
  Scoring.withPosition
    (Scoring.calculateScore unmarshalProgress zeroTime solvedX10 catalogX10) 1.

Definition owaspCache : Scoring.ScoringService :=
  {| Scoring.currentScores := {[ "owasp"%string := owaspScore ]};
     Scoring.currentScoresSorted := [owaspScore];
     Scoring.lastUpdate := zeroTime;
     Scoring.challengesMap := catalogX10 |}.

(** The lookup of a bundle loaded by a later call of the constructor, in
    which the challenge [X10] has difficulty 5. *)
Definition catalogX10Later : gmap string Scoring.JuiceShopChallenge :=
  Scoring.challengesMapOf [Scoring.mkJuiceShopChallenge "X10" 5].

End Fixtures.

(** * Properties *)

Module GoFacts.
Import Go.

Lemma wrap_int_id z : int_min <= z <= int_max -> wrap_int z = z.
Proof.
unfold int_min, int_max, wrap_int. intros Hz.
rewrite Z.mod_small by lia. lia.
Qed.

Lemma wrap_int_cong a b :
a mod 2 ^ 64 = b mod 2 ^ 64 -> wrap_int a = wrap_int b.
Proof.
unfold wrap_int. intros Hab.
rewrite (Zplus_mod a), (Zplus_mod b), Hab. reflexivity.
Qed.

Lemma wrap_int_mod z : wrap_int z mod 2 ^ 64 = z mod 2 ^ 64.
Proof.
unfold wrap_int.
rewrite Zminus_mod, Zmod_mod, <- Zminus_mod.
f_equal. lia.
Qed.

Lemma int_add_wrap_l a b : int_add (wrap_int a) b = wrap_int (a + b).
Proof.
unfold int_add. apply wrap_int_cong.
rewrite Zplus_mod, wrap_int_mod, <- Zplus_mod. reflexivity.
Qed.

Lemma int_add_wrap_r a b : int_add a (wrap_int b) = wrap_int (a + b).
Proof.
unfold int_add. apply wrap_int_cong.
rewrite Zplus_mod, wrap_int_mod, <- Zplus_mod. reflexivity.
Qed.

Lemma time_eqb_eq t u : time_eqb t u = true <-> t = u.
Proof.
unfold time_eqb. destruct t as [i l], u as [j k]; simpl.
rewrite andb_true_iff, !Z.eqb_eq. split.
- intros [-> ->]. reflexivity.
- intros [= -> ->]. split; reflexivity.
Qed.

End GoFacts.

Module ScoringFacts.
Import Go GoFacts Scoring.

Section CalculatorFacts.
Variable unmarshal : string -> option (list ChallengeProgress).
Variable now : Time.

Lemma scoreStep_score catalog s names entry :
  exists names',
    scoreStep catalog (wrap_int s, names) entry
    = (wrap_int (s + entryPoints catalog entry), names').
Proof.
  unfold scoreStep, entryPoints.
  destruct (catalog !! Key entry) as [challenge|]; simpl.
  - eexists. f_equal. unfold int_mul. rewrite int_add_wrap_r.
    apply int_add_wrap_l.
  - exists names. do 2 f_equal. lia.
Qed.

Lemma scoreLoop_score catalog solved s names :
  fst (fold_left (scoreStep catalog) solved (wrap_int s, names))
  = wrap_int (s + foldr Z.add 0 (entryPoints catalog <$> solved)).
Proof.
  revert s names. induction solved as [|entry solved IH]; intros s names.
  - simpl. f_equal. lia.
  - rewrite fmap_cons. cbn [fold_left foldr].
    destruct (scoreStep_score catalog s names entry) as [names' ->].
    rewrite IH. f_equal. lia.
Qed.

Lemma addBonus_wrap continueCode s :
  addBonus continueCode (wrap_int s) = wrap_int (s + bonusPoints continueCode).
Proof.
  unfold addBonus, bonusPoints. destruct (String.eqb continueCode "").
  - f_equal. lia.
  - apply int_add_wrap_l.
Qed.

Lemma calculateScore_parsed (d : Deployment) catalog solved :
  index (Annotations d) annChallenges <> ""%string ->
  unmarshal (index (Annotations d) annChallenges) = Some solved ->
  Score (calculateScore unmarshal now d catalog)
  = wrap_int (specScore catalog solved
                (index (Annotations d) annContinueCodeFindIt)
                (index (Annotations d) annContinueCodeFixIt)).
Proof.
  intros Hne Hparse. unfold calculateScore.
  apply String.eqb_neq in Hne. rewrite Hne, Hparse.
  pose proof (scoreLoop_score catalog solved 0 []) as Hloop.
  change (wrap_int 0) with 0 in Hloop.
  destruct (fold_left (scoreStep catalog) solved (0, [])) as [score names].
  simpl in Hloop. subst score. simpl.
  rewrite !addBonus_wrap. unfold specScore. f_equal.
Qed.

(** C1: for an instance whose solved-challenge annotation parses, the score
    is the sum of difficulty times ten over the solved entries found in the
    catalog (the others contribute nothing) plus 50 for each bonus continue
    code that is a non-empty string, the sum being a value of Go's [int]. *)
Theorem calculateScore_is_weighted_sum (d : Deployment) catalog solved :
  index (Annotations d) annChallenges <> ""%string ->
  unmarshal (index (Annotations d) annChallenges) = Some solved ->
  int_min <= specScore catalog solved
               (index (Annotations d) annContinueCodeFindIt)
               (index (Annotations d) annContinueCodeFixIt) <= int_max ->
  Score (calculateScore unmarshal now d catalog)
  = specScore catalog solved
      (index (Annotations d) annContinueCodeFindIt)
      (index (Annotations d) annContinueCodeFixIt).
Proof.
  intros Hne Hparse Hrange.
  rewrite (calculateScore_parsed d catalog solved Hne Hparse).
  apply wrap_int_id, Hrange.
Qed.

(** C7: when the solved-challenge annotation is the empty string or does not
    decode, the result has score 0 and no challenges, and its readiness is
    whether the deployment has a ready replica. *)
Theorem calculateScore_without_progress (d : Deployment) catalog :
  index (Annotations d) annChallenges = ""%string
  \/ unmarshal (index (Annotations d) annChallenges) = None ->
  Score (calculateScore unmarshal now d catalog) = 0
  /\ Challenges (calculateScore unmarshal now d catalog) = []
  /\ InstanceReadiness (calculateScore unmarshal now d catalog)
     = (0 <? ReadyReplicas d)
  /\ Name (calculateScore unmarshal now d catalog) = index (Labels d) "team".
Proof.
  unfold calculateScore. intros [Hempty | Hfail].
  - rewrite Hempty. simpl. auto.
  - rewrite Hfail.
    destruct (String.eqb (index (Annotations d) annChallenges) ""); simpl; auto.
Qed.

End CalculatorFacts.

Example score_X10_alone :
  Score (calculateScore Fixtures.unmarshalProgress zeroTime
           Fixtures.solvedX10 Fixtures.catalogX10) = 30.
Proof. vm_compute. reflexivity. Qed.

Example score_X10_with_one_bonus :
  Score (calculateScore Fixtures.unmarshalProgress zeroTime
           Fixtures.solvedX10WithFindIt Fixtures.catalogX10) = 80.
Proof. vm_compute. reflexivity. Qed.

Lemma calculateScore_is_weighted_sum_witness :
  Score (calculateScore Fixtures.unmarshalProgress zeroTime
           Fixtures.solvedX10WithFindIt Fixtures.catalogX10) = 80.
Proof.
  apply (calculateScore_is_weighted_sum Fixtures.unmarshalProgress zeroTime
           Fixtures.solvedX10WithFindIt Fixtures.catalogX10 [Fixtures.x10]).
  - vm_compute. discriminate.
  - vm_compute. reflexivity.
  - vm_compute. split; discriminate.
Defined.

Lemma calculateScore_without_progress_witness :
  Score (calculateScore Fixtures.unmarshalProgress zeroTime
           Fixtures.brokenAnnotation Fixtures.catalogX10) = 0
  /\ Challenges (calculateScore Fixtures.unmarshalProgress zeroTime
           Fixtures.brokenAnnotation Fixtures.catalogX10) = []
  /\ InstanceReadiness (calculateScore Fixtures.unmarshalProgress zeroTime
           Fixtures.brokenAnnotation Fixtures.catalogX10) = (0 <? 2)
  /\ Name (calculateScore Fixtures.unmarshalProgress zeroTime
           Fixtures.brokenAnnotation Fixtures.catalogX10) = "owasp"%string.
Proof.
  apply (calculateScore_without_progress Fixtures.unmarshalProgress zeroTime
           Fixtures.brokenAnnotation Fixtures.catalogX10).
  right. vm_compute. reflexivity.
Defined.

(** *** The sort *)

Section SortFacts.
Context {A : Type} (less : A -> A -> bool).

Lemma insertLess_Permutation x r : insertLess less x r ≡ₚ x :: r.
Proof.
  induction r as [|e r IH]; simpl; [done|].
  destruct (less x e); [|done].
  rewrite IH. apply Permutation_swap.
Qed.

Lemma fold_insertLess_Permutation data acc :
  fold_left (fun rprefix x => insertLess less x rprefix) data acc ≡ₚ data ++ acc.
Proof.
  revert acc. induction data as [|x data IH]; intros acc; simpl; [done|].
  rewrite IH, insertLess_Permutation. symmetry. apply Permutation_middle.
Qed.

Lemma insertionSort_Permutation data : insertionSort less data ≡ₚ data.
Proof.
  unfold insertionSort. rewrite <- Permutation_rev.
  rewrite fold_insertLess_Permutation. by rewrite app_nil_r.
Qed.

Lemma insertLess_ext (less' : A -> A -> bool) x r :
  (forall e, e ∈ r -> less x e = less' x e) ->
  insertLess less x r = insertLess less' x r.
Proof.
  induction r as [|e r IH]; intros Hagree; simpl; [done|].
  rewrite <- (Hagree e) by left.
  destruct (less x e); [|done].
  f_equal. apply IH. intros e' He'. apply Hagree. by right.
Qed.

Lemma fold_insertLess_ext (less' : A -> A -> bool) data acc :
  (forall a b, a ∈ data ++ acc -> b ∈ data ++ acc -> less a b = less' a b) ->
  fold_left (fun rprefix x => insertLess less x rprefix) data acc
  = fold_left (fun rprefix x => insertLess less' x rprefix) data acc.
Proof.
  revert acc. induction data as [|x data IH]; intros acc Hagree; simpl; [done|].
  assert (Hmem : forall a, a ∈ data ++ insertLess less x acc -> a ∈ (x :: data) ++ acc).
  { intros a. rewrite !elem_of_app, insertLess_Permutation, !elem_of_cons. tauto. }
  rewrite <- (insertLess_ext less' x acc).
  - apply IH. intros a b Ha Hb. apply Hagree; by apply Hmem.
  - intros e He. apply Hagree; [left|right; apply elem_of_app; by right].
Qed.

Lemma insertionSort_ext (less' : A -> A -> bool) data :
  (forall a b, a ∈ data -> b ∈ data -> less a b = less' a b) ->
  insertionSort less data = insertionSort less' data.
Proof.
  intros Hagree. unfold insertionSort. f_equal.
  apply fold_insertLess_ext. by rewrite app_nil_r.
Qed.

(** Whatever relation the comparator respects in both of its answers orders
    the result. *)
Section Sorted.
Context (R : relation A).
Hypothesis R_trans : forall a b c, R a b -> R b c -> R a c.
Hypothesis less_true : forall x e, less x e = true -> R e x.
Hypothesis less_false : forall x e, less x e = false -> R x e.

Lemma insertLess_sorted x r :
  StronglySorted R r -> StronglySorted R (insertLess less x r).
Proof.
  induction 1 as [|e r Hsorted IH Hall]; simpl.
  - repeat constructor.
  - destruct (less x e) eqn:Hless.
    + constructor; [done|].
      rewrite insertLess_Permutation. constructor; [|done].
      by apply less_true.
    + apply less_false in Hless.
      constructor; [by constructor|].
      constructor; [done|].
      eapply Forall_impl; [exact Hall|]. intros y Hy. by eapply R_trans.
Qed.

Lemma fold_insertLess_sorted data acc :
  StronglySorted R acc ->
  StronglySorted R (fold_left (fun rprefix x => insertLess less x rprefix) data acc).
Proof.
  revert acc. induction data as [|x data IH]; intros acc Hacc; simpl; [done|].
  by apply IH, insertLess_sorted.
Qed.

End Sorted.

End SortFacts.

Lemma StronglySorted_rev {A} (R : relation A) l :
  StronglySorted R l -> StronglySorted (flip R) (rev l).
Proof.
  induction 1 as [|x l Hsorted IH Hall]; simpl; [constructor|].
  apply StronglySorted_app_2; [|done|repeat constructor].
  intros y z Hy Hz. apply list_elem_of_singleton in Hz as ->.
  rewrite Forall_forall in Hall. apply Hall.
  by apply list_elem_of_In, in_rev, list_elem_of_In.
Qed.

Lemma StronglySorted_lookup {A} (R : relation A) l i j a b :
  StronglySorted R l -> (i < j)%nat ->
  l !! i = Some a -> l !! j = Some b -> R a b.
Proof.
  intros Hsorted. revert i j.
  induction Hsorted as [|x l Hsorted IH Hall]; intros i j Hij Hi Hj; [done|].
  destruct j as [|j]; [lia|]. destruct i as [|i]; simpl in *.
  - injection Hi as <-. rewrite Forall_forall in Hall.
    apply Hall. by eapply list_elem_of_lookup_2.
  - apply (IH i j); [lia|done..].
Qed.

Lemma insertionSort_sorted {A} (less : A -> A -> bool) (R : relation A) data :
  (forall a b c, R a b -> R b c -> R a c) ->
  (forall x e, less x e = true -> R e x) ->
  (forall x e, less x e = false -> R x e) ->
  StronglySorted (flip R) (insertionSort less data).
Proof.
  intros Htrans Htrue Hfalse. unfold insertionSort.
  apply StronglySorted_rev, fold_insertLess_sorted; [done..|constructor].
Qed.

(** *** Positions *)

Lemma setPositions_lookup prev i position rest k t :
  setPositions prev i position rest !! k = Some t ->
  exists t0, rest !! k = Some t0 /\ t = withPosition t0 (Position t).
Proof.
  revert prev i position k.
  induction rest as [|t1 rest IH]; intros prev i position k Hk; [done|].
  destruct k as [|k]; simpl in Hk.
  - injection Hk as <-. by exists t1.
  - by apply IH in Hk.
Qed.

Lemma setPositions_elem_of prev i position rest t :
  t ∈ setPositions prev i position rest ->
  exists t0, t0 ∈ rest /\ Score t = Score t0 /\ Name t = Name t0.
Proof.
  intros [k Hk]%list_elem_of_lookup_1.
  apply setPositions_lookup in Hk as (t0 & Hk & ->).
  exists t0. split; [by eapply list_elem_of_lookup_2|done].
Qed.

Lemma setPositions_step prev i position rest k p t :
  setPositions prev i position rest !! k = Some p ->
  setPositions prev i position rest !! S k = Some t ->
  Position t
  = if Score t <? Score p then Z.of_nat (i + S k) + 1 else Position p.
Proof.
  revert prev i position k.
  induction rest as [|t1 rest IH]; intros prev i position k Hp Ht; [done|].
  destruct k as [|k]; simpl in Hp, Ht.
  - injection Hp as <-. destruct rest as [|t2 rest]; [done|].
    simpl in Ht. injection Ht as <-. simpl.
    by replace (i + 1)%nat with (S i) by lia.
  - rewrite (IH _ _ _ _ Hp Ht). by replace (S i + S k)%nat with (i + S (S k))%nat by lia.
Qed.

Lemma setPositions_lower prev i position rest :
  position <= Z.of_nat i + 1 ->
  Forall (fun t => position <= Position t) (setPositions prev i position rest).
Proof.
  revert prev i position.
  induction rest as [|t rest IH]; intros prev i position Hle; simpl; [done|].
  set (position' := match prev with
                    | Some p => if Score t <? Score p then Z.of_nat i + 1 else position
                    | None => position
                    end).
  assert (position <= position' <= Z.of_nat (S i) + 1) as [Hlow Hhigh].
  { subst position'. destruct prev as [p|]; [destruct (Score t <? Score p)|]; lia. }
  constructor; [done|].
  eapply Forall_impl; [by apply IH|]. simpl. intros; lia.
Qed.

Lemma setPositions_monotone prev i position rest :
  position <= Z.of_nat i + 1 ->
  StronglySorted (fun a b => Position a <= Position b)
                 (setPositions prev i position rest).
Proof.
  revert prev i position.
  induction rest as [|t rest IH]; intros prev i position Hle; simpl; [constructor|].
  set (position' := match prev with
                    | Some p => if Score t <? Score p then Z.of_nat i + 1 else position
                    | None => position
                    end).
  assert (position' <= Z.of_nat (S i) + 1) as Hhigh.
  { subst position'. destruct prev as [p|]; [destruct (Score t <? Score p)|]; lia. }
  constructor; [by apply IH|].
  by apply setPositions_lower.
Qed.

Lemma setPositions_tie_with_prev rest p i position t :
  StronglySorted scoreDescending (p :: rest) ->
  t ∈ setPositions (Some p) i position rest ->
  Score t = Score p -> Position t = position.
Proof.
  revert p i position.
  induction rest as [|t1 rest IH]; intros p i position Hsorted Ht Heq; simpl in Ht.
  { by apply elem_of_nil in Ht. }
  apply StronglySorted_inv in Hsorted as [Hsorted Hp].
  destruct (StronglySorted_inv Hsorted) as [_ Ht1].
  apply Forall_cons in Hp as [Hp1 _]. unfold scoreDescending in Hp1.
  apply elem_of_cons in Ht as [-> | Ht].
  - simpl in *. destruct (Score t1 <? Score p) eqn:Hlt; [lia|done].
  - assert (Score t <= Score t1) as Hle.
    { apply setPositions_elem_of in Ht as (t0 & Hin & -> & _).
      rewrite Forall_forall in Ht1. by apply Ht1. }
    assert ((Score t1 <? Score p) = false) as Hlt by lia.
    rewrite Hlt in Ht. apply (IH t1 (S i) position); [done..|lia].
Qed.

Lemma setPositions_ties prev i position rest :
  StronglySorted scoreDescending rest ->
  StronglySorted (fun a b => Score a = Score b -> Position a = Position b)
                 (setPositions prev i position rest).
Proof.
  revert prev i position.
  induction rest as [|t rest IH]; intros prev i position Hsorted; simpl; [constructor|].
  constructor; [apply IH; by apply StronglySorted_inv in Hsorted as [? _]|].
  apply Forall_forall. intros b Hb Heq. simpl in *. symmetry.
  by apply (setPositions_tie_with_prev rest t (S i)).
Qed.

(** *** The ranking *)

Lemma rankLess_true_score x e : rankLess x e = true -> Score e <= Score x.
Proof.
  unfold rankLess. destruct (Score x =? Score e) eqn:Heq; lia.
Qed.

Lemma rankLess_false_score x e : rankLess x e = false -> Score x <= Score e.
Proof.
  unfold rankLess. destruct (Score x =? Score e) eqn:Heq; lia.
Qed.

Lemma ranked_scores_descending teamScores :
  StronglySorted scoreDescending (insertionSort rankLess teamScores).
Proof.
  apply (insertionSort_sorted rankLess (fun a b => Score a <= Score b)).
  - intros a b c. lia.
  - apply rankLess_true_score.
  - apply rankLess_false_score.
Qed.

(** The position loop on any sequence whose scores do not increase. *)
Lemma setPositions_competition_ranking (sorted : list TeamScore) :
  StronglySorted scoreDescending sorted ->
  let ranked := setPositions None 0 1 sorted in
  (forall t, ranked !! 0%nat = Some t -> Position t = 1)
  /\ (forall i p t, ranked !! i = Some p -> ranked !! S i = Some t ->
        Position t
        = if decide (Score t = Score p) then Position p else Z.of_nat (S i) + 1)
  /\ (forall i j a b, (i <= j)%nat -> ranked !! i = Some a -> ranked !! j = Some b ->
        Position a <= Position b)
  /\ (forall a b, a ∈ ranked -> b ∈ ranked -> Score a = Score b ->
        Position a = Position b).
Proof.
  intros Hdesc ranked. subst ranked.
  pose proof (setPositions_monotone None 0 1 sorted ltac:(lia)) as Hmono.
  pose proof (setPositions_ties None 0 1 sorted Hdesc) as Hties.
  split_and!.
  - intros t Ht. destruct sorted as [|t0 sorted']; [done|].
    simpl in Ht. by injection Ht as <-.
  - intros i p t Hp Ht.
    rewrite (setPositions_step _ _ _ _ _ _ _ Hp Ht).
    destruct (setPositions_lookup _ _ _ _ _ _ Hp) as (p0 & Hp0 & ->).
    destruct (setPositions_lookup _ _ _ _ _ _ Ht) as (t0 & Ht0 & ->).
    assert (Score t0 <= Score p0) as Hle.
    { apply (StronglySorted_lookup scoreDescending sorted i (S i)); [done|lia|done..]. }
    simpl. destruct (decide (Score t0 = Score p0)) as [Heq|Hne].
    + assert ((Score t0 <? Score p0) = false) as -> by lia. done.
    + assert ((Score t0 <? Score p0) = true) as -> by lia. done.
  - intros i j a b Hij Ha Hb.
    destruct (decide (i = j)) as [->|Hne].
    + rewrite Ha in Hb. injection Hb as ->. lia.
    + apply (StronglySorted_lookup _ _ i j a b Hmono); [lia|done..].
  - intros a b [i Ha]%list_elem_of_lookup_1 [j Hb]%list_elem_of_lookup_1 Heq.
    destruct (Nat.lt_trichotomy i j) as [Hlt | [-> | Hgt]].
    + by apply (StronglySorted_lookup _ _ i j a b Hties).
    + rewrite Ha in Hb. by injection Hb as ->.
    + symmetry. by apply (StronglySorted_lookup _ _ j i b a Hties).
Qed.

(** The position loop changes nothing but the positions. *)
Lemma setPositions_erase prev i position rest :
  (fun t => withPosition t 0) <$> setPositions prev i position rest
  = (fun t => withPosition t 0) <$> rest.
Proof.
  revert prev i position.
  induction rest as [|t rest IH]; intros prev i position; [done|].
  cbn [setPositions]. rewrite !fmap_cons, IH. done.
Qed.

(** C3: the ranked output holds the teams of the map, each once and with
    nothing but its position changed, and the positions follow competition
    ranking: the first element has position 1; a later element has its
    1-based index as position when its score differs from the score of the
    element before it, and that element's position otherwise; positions never
    decrease along the sequence, and teams with equal scores have equal
    positions. *)
Theorem positions_follow_competition_ranking (teamScores : list TeamScore) :
  let ranked := sortTeamsByScoreAndCalculatePositions teamScores in
  (fun t => withPosition t 0) <$> ranked ≡ₚ (fun t => withPosition t 0) <$> teamScores
  /\ (forall t, ranked !! 0%nat = Some t -> Position t = 1)
  /\ (forall i p t, ranked !! i = Some p -> ranked !! S i = Some t ->
        Position t
        = if decide (Score t = Score p) then Position p else Z.of_nat (S i) + 1)
  /\ (forall i j a b, (i <= j)%nat -> ranked !! i = Some a -> ranked !! j = Some b ->
        Position a <= Position b)
  /\ (forall a b, a ∈ ranked -> b ∈ ranked -> Score a = Score b ->
        Position a = Position b).
Proof.
  unfold sortTeamsByScoreAndCalculatePositions. split.
  - rewrite setPositions_erase. by rewrite insertionSort_Permutation.
  - apply setPositions_competition_ranking, ranked_scores_descending.
Qed.

(** *** The order of the ranking *)

Lemma latest_fold challenges t0 :
  let latest :=
    fold_left
      (fun maxTime challenge =>
         if After (SolvedAt challenge) maxTime then SolvedAt challenge else maxTime)
      challenges t0 in
  instant t0 <= instant latest
  /\ Forall (fun challenge => instant (SolvedAt challenge) <= instant latest) challenges
  /\ (latest = t0 \/ exists challenge, challenge ∈ challenges /\ latest = SolvedAt challenge).
Proof.
  revert t0. induction challenges as [|c challenges IH]; intros t0; simpl.
  - split_and!; [lia|constructor|by left].
  - destruct (After (SolvedAt c) t0) eqn:Hafter; unfold After in Hafter.
    + destruct (IH (SolvedAt c)) as (Hge & Hall & Hmem). split_and!.
      * lia.
      * constructor; [lia|done].
      * right. destruct Hmem as [-> | (c' & Hc' & ->)].
        -- exists c. split; [left|done].
        -- exists c'. split; [by right|done].
    + destruct (IH t0) as (Hge & Hall & Hmem). split_and!.
      * lia.
      * constructor; [lia|done].
      * destruct Hmem as [-> | (c' & Hc' & ->)]; [by left|].
        right. exists c'. split; [by right|done].
Qed.

(** The latest solve is an upper bound of the solve instants of the list and
    of the zero time, and is one of them. *)
Lemma getLatestChallengeSolve_max challenges :
  0 <= instant (getLatestChallengeSolve challenges)
  /\ Forall (fun challenge =>
               instant (SolvedAt challenge) <= instant (getLatestChallengeSolve challenges))
            challenges
  /\ (getLatestChallengeSolve challenges = zeroTime
      \/ exists challenge, challenge ∈ challenges
           /\ getLatestChallengeSolve challenges = SolvedAt challenge).
Proof. apply (latest_fold challenges zeroTime). Qed.

Lemma rankLess_specLess a b : sameLocation a b -> rankLess a b = specLess a b.
Proof.
  unfold sameLocation, rankLess, specLess, time_eqb. intros ->.
  by rewrite Z.eqb_refl, andb_true_r.
Qed.

Lemma ltb_false_leb (s1 s2 : string) :
  String.ltb s1 s2 = false <-> String.leb s2 s1 = true.
Proof.
  unfold String.ltb, String.leb. rewrite (String.compare_antisym s2 s1).
  destruct (String.compare s1 s2); simpl; split; congruence.
Qed.

(** [specLess a b = false] spelled out: [b] is not ranked after [a]. *)
Lemma specLess_false a b :
  specLess a b = false <->
  Score a < Score b
  \/ (Score a = Score b
      /\ (instant (getLatestChallengeSolve (Challenges b))
           < instant (getLatestChallengeSolve (Challenges a))
          \/ (instant (getLatestChallengeSolve (Challenges a))
               = instant (getLatestChallengeSolve (Challenges b))
              /\ String.leb (Name b) (Name a) = true))).
Proof.
  unfold specLess.
  destruct (Score a =? Score b) eqn:Hscore.
  - destruct (instant (getLatestChallengeSolve (Challenges a))
              =? instant (getLatestChallengeSolve (Challenges b))) eqn:Htime.
    + rewrite ltb_false_leb. split; [intros; right; split; [lia|right; split; [lia|done]]|].
      intros [?|[_ [?|[_ ?]]]]; [lia|lia|done].
    + split; [intros; right; split; [lia|left; lia]|].
      intros [?|[_ [?|[? _]]]]; lia.
  - split; [intros; left; lia|]. intros [?|[? _]]; lia.
Qed.

Lemma specLess_asym a b : specLess a b = true -> specLess b a = false.
Proof.
  intros Hab. apply specLess_false.
  destruct (specLess b a) eqn:Hba; [|by apply specLess_false].
  unfold specLess in Hab, Hba. rewrite (Z.eqb_sym (Score b)) in Hba.
  destruct (Score a =? Score b) eqn:Hscore; [|lia].
  rewrite (Z.eqb_sym (instant (getLatestChallengeSolve (Challenges b)))) in Hba.
  destruct (instant (getLatestChallengeSolve (Challenges a))
            =? instant (getLatestChallengeSolve (Challenges b))) eqn:Htime; [|lia].
  apply not_false_iff_true in Hab. exfalso. apply Hab, ltb_false_leb.
  unfold String.ltb in Hba. unfold String.leb.
  by destruct (String.compare (Name b) (Name a)).
Qed.

Lemma specLess_negative_trans a b c :
  specLess a b = false -> specLess b c = false -> specLess a c = false.
Proof.
  rewrite !specLess_false.
  intros [?|[? [?|[? Hba]]]] [?|[? [?|[? Hcb]]]];
    try (left; lia); try (right; split; [lia|left; lia]).
  right. split; [lia|]. right. split; [lia|].
  apply Is_true_true. apply Is_true_true in Hba, Hcb.
  by apply (transitivity (R := String.le) Hcb Hba).
Qed.

(** While the latest solves of the teams share one location, the ranked
    sequence is ordered as the specification words it. *)
Lemma ranked_in_spec_order teamScores :
  normalised teamScores ->
  StronglySorted (fun a b => specLess b a = false)
                 (insertionSort rankLess teamScores).
Proof.
  intros Hnorm.
  rewrite (insertionSort_ext rankLess specLess).
  - apply (insertionSort_sorted specLess (fun a b => specLess a b = false)).
    + apply specLess_negative_trans.
    + apply specLess_asym.
    + done.
  - intros a b Ha Hb. by apply rankLess_specLess, Hnorm.
Qed.

Lemma NoDup_fmap_elem_eq {A B} (f : A -> B) (l : list A) a b :
  NoDup (f <$> l) -> a ∈ l -> b ∈ l -> f a = f b -> a = b.
Proof.
  induction l as [|x l IH]; intros Hnodup Ha Hb Heq.
  { by apply elem_of_nil in Ha. }
  rewrite fmap_cons in Hnodup. apply NoDup_cons in Hnodup as [Hx Hnodup].
  apply elem_of_cons in Ha as [-> | Ha], Hb as [-> | Hb]; [done| | |by apply IH].
  - exfalso. apply Hx. rewrite Heq. by apply list_elem_of_fmap_2.
  - exfalso. apply Hx. rewrite <- Heq. by apply list_elem_of_fmap_2.
Qed.

(** With distinct team names as well, the ranked sequence no longer depends
    on the order in which the map was iterated. *)
Lemma ranking_independent_of_iteration teamScores1 teamScores2 :
  teamScores1 ≡ₚ teamScores2 ->
  normalised teamScores1 ->
  NoDup (Name <$> teamScores1) ->
  sortTeamsByScoreAndCalculatePositions teamScores1
  = sortTeamsByScoreAndCalculatePositions teamScores2.
Proof.
  intros Hperm Hnorm Hnames. unfold sortTeamsByScoreAndCalculatePositions.
  f_equal.
  apply (StronglySorted_unique_strong (fun a b => specLess b a = false)).
  - intros a b Ha Hb Hba Hab.
    rewrite insertionSort_Permutation in Ha, Hb. rewrite <- Hperm in Hb.
    apply (NoDup_fmap_elem_eq Name teamScores1); [done..|].
    apply specLess_false in Hab, Hba.
    destruct Hab as [?|[? [?|[? Hab]]]], Hba as [?|[? [?|[? Hba]]]]; try lia.
    by apply String.leb_antisym.
  - by apply ranked_in_spec_order.
  - apply ranked_in_spec_order. intros a b Ha Hb.
    rewrite <- Hperm in Ha, Hb. by apply Hnorm.
  - by rewrite !insertionSort_Permutation.
Qed.

(** C2: two teams with the same score whose latest solves are the same
    instant held in different locations are not ordered by [rankLess] in
    either direction, and the ranked sequence is then the order in which the
    map happened to be iterated, not the ascending order of the names. *)
Theorem ranking_tie_on_same_instant_follows_iteration :
  let teamScores : gmap string TeamScore :=
    {[ "alpha"%string := Fixtures.tieUTC; "beta"%string := Fixtures.tieOffset ]} in
  rangeOver teamScores [Fixtures.tieUTC; Fixtures.tieOffset]
  /\ rangeOver teamScores [Fixtures.tieOffset; Fixtures.tieUTC]
  /\ Score Fixtures.tieUTC = Score Fixtures.tieOffset
  /\ instant (getLatestChallengeSolve (Challenges Fixtures.tieUTC))
     = instant (getLatestChallengeSolve (Challenges Fixtures.tieOffset))
  /\ rankLess Fixtures.tieUTC Fixtures.tieOffset = false
  /\ rankLess Fixtures.tieOffset Fixtures.tieUTC = false
  /\ Name <$> sortTeamsByScoreAndCalculatePositions [Fixtures.tieUTC; Fixtures.tieOffset]
     = ["alpha"%string; "beta"%string]
  /\ Name <$> sortTeamsByScoreAndCalculatePositions [Fixtures.tieOffset; Fixtures.tieUTC]
     = ["beta"%string; "alpha"%string].
Proof.
  assert (map_to_list
            ({[ "alpha"%string := Fixtures.tieUTC;
                "beta"%string := Fixtures.tieOffset ]} : gmap string TeamScore)
          = [("alpha"%string, Fixtures.tieUTC); ("beta"%string, Fixtures.tieOffset)])
    as Hlist by (vm_compute; reflexivity).
  unfold rangeOver. cbv zeta. rewrite Hlist.
  split_and!; try (simpl; apply Permutation_refl || apply Permutation_swap);
    try (vm_compute; reflexivity).
Qed.

Lemma positions_follow_competition_ranking_witness :
  let ranked := sortTeamsByScoreAndCalculatePositions Fixtures.board in
  (fun t => withPosition t 0) <$> ranked
  ≡ₚ (fun t => withPosition t 0) <$> Fixtures.board
  /\ (forall t, ranked !! 0%nat = Some t -> Position t = 1)
  /\ (forall i p t, ranked !! i = Some p -> ranked !! S i = Some t ->
        Position t
        = if decide (Score t = Score p) then Position p else Z.of_nat (S i) + 1)
  /\ (forall i j a b, (i <= j)%nat -> ranked !! i = Some a -> ranked !! j = Some b ->
        Position a <= Position b)
  /\ (forall a b, a ∈ ranked -> b ∈ ranked -> Score a = Score b ->
        Position a = Position b).
Proof. exact (positions_follow_competition_ranking Fixtures.board). Defined.

Example board_positions :
  (fun t => (Name t, Score t, Position t))
    <$> sortTeamsByScoreAndCalculatePositions Fixtures.board
  = [ ("a"%string, 30, 1); ("b"%string, 30, 1); ("c"%string, 10, 3);
      ("d"%string, 10, 3); ("e"%string, 0, 5) ].
Proof. vm_compute. reflexivity. Qed.

(** *** Long-poll read *)

Lemma choose_elem_of n ready : ready <> [] -> choose n ready ∈ ready.
Proof.
  intros Hne. unfold choose. apply list_elem_of_In, nth_In.
  apply Nat.mod_upper_bound. by destruct ready.
Qed.

Lemma readyCases_spec nextTick done wake c :
  c ∈ readyCases nextTick done wake ->
  match c with
  | TickerC => nextTick <= wake
  | TimeoutC => maxWaitTime <= wake
  | CtxDone => exists d, done = Some d /\ Z.max 0 d <= wake
  end.
Proof.
  unfold readyCases. rewrite !elem_of_app. intros [Hc | [Hc | Hc]].
  - destruct (nextTick <=? wake) eqn:Hready; [|by apply elem_of_nil in Hc].
    apply list_elem_of_singleton in Hc as ->. lia.
  - destruct (maxWaitTime <=? wake) eqn:Hready; [|by apply elem_of_nil in Hc].
    apply list_elem_of_singleton in Hc as ->. lia.
  - destruct done as [d|]; [|by apply elem_of_nil in Hc].
    destruct (Z.max 0 d <=? wake) eqn:Hready; [|by apply elem_of_nil in Hc].
    apply list_elem_of_singleton in Hc as ->. exists d. split; [done|lia].
Qed.

Lemma readyCases_nonempty nextTick done :
  readyCases nextTick done (earliest nextTick done) <> [].
Proof.
  unfold readyCases, earliest.
  destruct done as [d|].
  - destruct (nextTick <=? _) eqn:Htick; [done|].
    destruct (maxWaitTime <=? _) eqn:Htimeout; [done|].
    destruct (Z.max 0 d <=? _) eqn:Hdone; [done|]. lia.
  - destruct (nextTick <=? _) eqn:Htick; [done|].
    destruct (maxWaitTime <=? _) eqn:Htimeout; [done|]. lia.
Qed.

Lemma earliest_deadline env nextTick :
  earliest nextTick (ctxDoneAt env) = Z.min nextTick (deadline env).
Proof. unfold earliest, deadline. destruct (ctxDoneAt env); lia. Qed.

Lemma deadline_bounds env : 0 <= deadline env <= maxWaitTime.
Proof.
  unfold deadline, maxWaitTime. destruct (ctxDoneAt env); lia.
Qed.

Lemma waitLoop_no_update env lastSeenUpdate fuel n nextTick :
  (forall t, After (lastUpdateAt env t) lastSeenUpdate = false) ->
  deadline env < nextTick + tickInterval * Z.of_nat fuel ->
  waitLoop (S fuel) env lastSeenUpdate n nextTick = Some (None, deadline env).
Proof.
  intros Hquiet. revert n nextTick.
  induction fuel as [|fuel IH]; intros n nextTick Hfuel.
  - cbn [waitLoop].
    pose proof (choose_elem_of (pick env n) _
                  (readyCases_nonempty nextTick (ctxDoneAt env))) as Hin.
    apply readyCases_spec in Hin. rewrite earliest_deadline in Hin |- *.
    destruct (choose _ _); [lia| |]; do 2 f_equal; lia.
  - cbn [waitLoop].
    pose proof (choose_elem_of (pick env n) _
                  (readyCases_nonempty nextTick (ctxDoneAt env))) as Hin.
    apply readyCases_spec in Hin. rewrite earliest_deadline in Hin |- *.
    pose proof (deadline_bounds env) as Hbounds.
    destruct (choose _ _).
    + rewrite Hquiet. apply IH. unfold tickInterval in *. lia.
    + do 2 f_equal. lia.
    + destruct Hin as (d & Hd & Hle). do 2 f_equal.
      unfold deadline in *. rewrite Hd in *. lia.
Qed.

(** C9: a read whose watermark is older than the last update returns the
    ranked board at once; a read during which no update newer than the
    watermark shows up returns nil exactly when the 25 s timer fires, or when
    the caller's context is cancelled if that comes first: not earlier, and
    within the bounded number of iterations the loop can make. *)
Theorem WaitForUpdatesNewerThan_returns (env : PollEnv) (lastSeenUpdate : Time) :
  (After (lastUpdateAt env 0) lastSeenUpdate = true ->
   WaitForUpdatesNewerThan env lastSeenUpdate
   = Some (Some (currentScoresSortedAt env 0), 0))
  /\ ((forall t, After (lastUpdateAt env t) lastSeenUpdate = false) ->
      WaitForUpdatesNewerThan env lastSeenUpdate = Some (None, deadline env)
      /\ (ctxDoneAt env = None -> deadline env = maxWaitTime)
      /\ (forall d, ctxDoneAt env = Some d ->
           deadline env = Z.min maxWaitTime (Z.max 0 d))).
Proof.
  unfold WaitForUpdatesNewerThan. split.
  - by intros ->.
  - intros Hquiet. rewrite Hquiet. split_and!.
    + change pollFuel with (S 501).
      apply (waitLoop_no_update env lastSeenUpdate); [done|].
      pose proof (deadline_bounds env).
      change (Z.of_nat 501) with 501.
      unfold tickInterval, maxWaitTime in *. lia.
    + unfold deadline. by intros ->.
    + unfold deadline. by intros d ->.
Qed.

Lemma WaitForUpdatesNewerThan_returns_witness :
  WaitForUpdatesNewerThan (Fixtures.quietCache None) (mkTime 50 0)
  = Some (Some (sortTeamsByScoreAndCalculatePositions Fixtures.board), 0)
  /\ WaitForUpdatesNewerThan (Fixtures.quietCache None) (mkTime 100 0)
     = Some (None, 25000000000)
  /\ WaitForUpdatesNewerThan (Fixtures.quietCache (Some 120)) (mkTime 100 0)
     = Some (None, 120).
Proof.
  split_and!.
  - apply (WaitForUpdatesNewerThan_returns (Fixtures.quietCache None) (mkTime 50 0)).
    reflexivity.
  - apply (WaitForUpdatesNewerThan_returns (Fixtures.quietCache None) (mkTime 100 0)).
    intros t. reflexivity.
  - apply (WaitForUpdatesNewerThan_returns (Fixtures.quietCache (Some 120))
             (mkTime 100 0)).
    intros t. reflexivity.
Defined.

End ScoringFacts.

Module WatchdogFacts.
Import Go Watchdog.

(** *** Challenge ids *)

Lemma challengeIds_fold (challengeIdLookup : gmap string Z) challenges ids :
  fold_left
    (fun ids challenge => ids ++ [default 0 (challengeIdLookup !! Key challenge)])
    challenges ids
  = ids ++ ((fun challenge => default 0 (challengeIdLookup !! Key challenge))
              <$> challenges).
Proof.
  revert ids. induction challenges as [|c challenges IH]; intros ids; simpl.
  - by rewrite app_nil_r.
  - rewrite IH, <- app_assoc. done.
Qed.

Lemma challengeIds_fmap (challengeIdLookup : gmap string Z) challenges :
  challengeIds challengeIdLookup challenges
  = (fun challenge => default 0 (challengeIdLookup !! Key challenge)) <$> challenges.
Proof. unfold challengeIds. by rewrite challengeIds_fold. Qed.

Lemma fillChallengeIdLookup_ids i challenges (challengeIdLookup : gmap string Z) key id :
  fillChallengeIdLookup i challenges challengeIdLookup !! key = Some id ->
  challengeIdLookup !! key = Some id \/ Z.of_nat i + 1 <= id.
Proof.
  revert i challengeIdLookup.
  induction challenges as [|c challenges IH]; intros i challengeIdLookup Hid; simpl in Hid.
  - by left.
  - apply IH in Hid as [Hid | Hid]; [|right; lia].
    destruct (decide (ChallengeKey c = key)) as [<- | Hne].
    + rewrite lookup_insert_eq in Hid. right. injection Hid as <-. lia.
    + rewrite lookup_insert_ne in Hid by done. by left.
Qed.

Lemma createChallengeIdLookup_positive challenges key id :
  createChallengeIdLookup challenges !! key = Some id -> 1 <= id.
Proof.
  intros [Hid | Hid]%fillChallengeIdLookup_ids; [|lia].
  by rewrite lookup_empty in Hid.
Qed.

(** C4 as the code has it: every status contributes one id, in order; a key
    the lookup does not know contributes the id 0, which no catalog entry
    has, and the encoder is handed that list. *)
Theorem challengeIds_one_id_per_status (encode : list Z -> option string)
    (catalog : list JuiceShopChallenge) (challenges : list ChallengeStatus) :
  let challengeIdLookup := createChallengeIdLookup catalog in
  challengeIds challengeIdLookup challenges
  = (fun challenge => default 0 (challengeIdLookup !! Key challenge)) <$> challenges
  /\ length (challengeIds challengeIdLookup challenges) = length challenges
  /\ (forall i challenge, challenges !! i = Some challenge ->
       (challengeIdLookup !! Key challenge = None
        <-> challengeIds challengeIdLookup challenges !! i = Some 0))
  /\ GenerateContinueCode encode challengeIdLookup challenges
     = encode ((fun challenge => default 0 (challengeIdLookup !! Key challenge))
                 <$> challenges).
Proof.
  intros challengeIdLookup. unfold GenerateContinueCode.
  rewrite challengeIds_fmap. split_and!; [done|by rewrite length_fmap| |done].
  intros i c Hc. rewrite list_lookup_fmap, Hc. simpl.
  destruct (challengeIdLookup !! Key c) as [id|] eqn:Hid; simpl; [|done].
  apply createChallengeIdLookup_positive in Hid.
  split; [done|]. intros [= ->]. lia.
Qed.

(** C4 as stated fails: with the score-board challenge in the catalog, a
    list with that challenge and an unknown one yields the ids 1 and 0, not
    the single id 1. *)
Lemma unknown_key_reaches_the_encoder :
  let challengeIdLookup := createChallengeIdLookup Fixtures.catalogFile in
  let challenges := [Fixtures.scoreBoard; Fixtures.notInCatalog] in
  challengeIdLookup !! Key Fixtures.notInCatalog = None
  /\ recognisedIds challengeIdLookup challenges = [1]
  /\ challengeIds challengeIdLookup challenges = [1; 0]
  /\ challengeIds challengeIdLookup challenges
     <> recognisedIds challengeIdLookup challenges.
Proof. vm_compute. split_and!; done. Qed.

(** *** The comparator *)

Lemma solvedIn_true statuses key :
  solvedIn statuses key = true <-> exists status, status ∈ statuses /\ Key status = key.
Proof.
  unfold solvedIn. rewrite existsb_exists. split.
  - intros (status & Hin & Heq). exists status.
    split; [by apply list_elem_of_In|by apply String.eqb_eq].
  - intros (status & Hin & Heq). exists status.
    split; [by apply list_elem_of_In|by apply String.eqb_eq].
Qed.

Lemma all_solvedIn statuses others :
  forallb (fun status => solvedIn others (Key status)) statuses = true
  <-> forall key, solvedIn statuses key = true -> solvedIn others key = true.
Proof.
  rewrite forallb_forall. split.
  - intros Hall key (status & Hin & <-)%solvedIn_true.
    by apply Hall, list_elem_of_In.
  - intros Hall status Hin. apply Hall, solvedIn_true.
    exists status. split; [by apply list_elem_of_In|done].
Qed.

Lemma CompareChallengeStates_NoOp current last :
  CompareChallengeStates current last = NoOp
  <-> forall key, solvedIn current key = solvedIn last key.
Proof.
  unfold CompareChallengeStates.
  destruct (forallb _ last) eqn:Hlast; simpl.
  - destruct (forallb _ current) eqn:Hcurrent; simpl.
    + rewrite all_solvedIn in Hlast, Hcurrent. split; [intros _|done].
      intros key. apply eq_true_iff_eq. split; auto.
    + split; [done|]. intros Hsame. exfalso.
      apply not_true_iff_false in Hcurrent. apply Hcurrent, all_solvedIn.
      intros key. by rewrite Hsame.
  - split; [done|]. intros Hsame. exfalso.
    apply not_true_iff_false in Hlast. apply Hlast, all_solvedIn.
    intros key. by rewrite Hsame.
Qed.

(** C5: the classification is by membership of solved keys: the same keys
    give NoOp; a key the last-known list has and the live list lacks gives
    ApplyCode; a live list that has every last-known key and one more gives
    UpdateCache; and two lists that differ in some key are never NoOp,
    whatever their lengths. *)
Theorem CompareChallengeStates_by_membership (current last : list ChallengeStatus) :
  ((forall key, solvedIn current key = solvedIn last key) ->
   CompareChallengeStates current last = NoOp)
  /\ ((exists key, solvedIn last key = true /\ solvedIn current key = false) ->
      CompareChallengeStates current last = ApplyCode)
  /\ ((forall key, solvedIn last key = true -> solvedIn current key = true) ->
      (exists key, solvedIn current key = true /\ solvedIn last key = false) ->
      CompareChallengeStates current last = UpdateCache)
  /\ (length current = length last ->
      (exists key, solvedIn current key <> solvedIn last key) ->
      CompareChallengeStates current last <> NoOp).
Proof.
  split_and!.
  - apply CompareChallengeStates_NoOp.
  - intros (key & Hlast & Hcurrent). unfold CompareChallengeStates.
    destruct (forallb _ last) eqn:Hall; [|done].
    rewrite all_solvedIn in Hall. apply Hall in Hlast. congruence.
  - intros Hsub (key & Hcurrent & Hlast). unfold CompareChallengeStates.
    apply all_solvedIn in Hsub. rewrite Hsub. simpl.
    destruct (forallb _ current) eqn:Hall; [|done].
    rewrite all_solvedIn in Hall. apply Hall in Hcurrent. congruence.
  - intros _ (key & Hdiff) Hnoop. apply Hdiff.
    by apply CompareChallengeStates_NoOp.
Qed.

Lemma CompareChallengeStates_by_membership_witness :
  CompareChallengeStates [Fixtures.scoreBoard; Fixtures.domXss]
                         [Fixtures.domXss; Fixtures.scoreBoard] = NoOp
  /\ CompareChallengeStates [Fixtures.scoreBoard]
                            [Fixtures.scoreBoard; Fixtures.domXss] = ApplyCode
  /\ CompareChallengeStates [Fixtures.scoreBoard; Fixtures.domXss]
                            [Fixtures.scoreBoard] = UpdateCache
  /\ CompareChallengeStates [Fixtures.scoreBoard; Fixtures.errorHandling]
                            [Fixtures.scoreBoard; Fixtures.domXss] <> NoOp.
Proof.
  split_and!.
  - apply (CompareChallengeStates_by_membership
             [Fixtures.scoreBoard; Fixtures.domXss]
             [Fixtures.domXss; Fixtures.scoreBoard]).
    intros key. unfold solvedIn, Fixtures.scoreBoard, Fixtures.domXss.
    cbn [existsb Key].
    destruct (String.eqb "scoreBoardChallenge" key),
             (String.eqb "localXssChallenge" key); reflexivity.
  - apply (CompareChallengeStates_by_membership
             [Fixtures.scoreBoard] [Fixtures.scoreBoard; Fixtures.domXss]).
    exists "localXssChallenge"%string. vm_compute. split; reflexivity.
  - apply (CompareChallengeStates_by_membership
             [Fixtures.scoreBoard; Fixtures.domXss] [Fixtures.scoreBoard]).
    + intros key. unfold solvedIn, Fixtures.scoreBoard, Fixtures.domXss.
      cbn [existsb Key].
      destruct (String.eqb "scoreBoardChallenge" key); [reflexivity|discriminate].
    + exists "localXssChallenge"%string. vm_compute. split; reflexivity.
  - apply (CompareChallengeStates_by_membership
             [Fixtures.scoreBoard; Fixtures.errorHandling]
             [Fixtures.scoreBoard; Fixtures.domXss]).
    + reflexivity.
    + exists "localXssChallenge"%string. vm_compute. discriminate.
Defined.

(** *** Scheduler *)

Lemma createProgressUpdateJobs_app unmarshal
    (before : list (list Deployment)) (later : list (option (list Deployment))) :
  createProgressUpdateJobs unmarshal ((Some <$> before) ++ later)
  = (flat_map (jobsOfCycle unmarshal) before
       ++ fst (createProgressUpdateJobs unmarshal later),
     snd (createProgressUpdateJobs unmarshal later)).
Proof.
  induction before as [|items before IH].
  - simpl. by destruct (createProgressUpdateJobs unmarshal later).
  - rewrite fmap_cons. cbn [app createProgressUpdateJobs flat_map].
    rewrite IH. by rewrite app_assoc.
Qed.

(** C8 as the code has it: the first cycle whose [List] call fails ends the
    scheduler with a panic: the jobs sent are those of the cycles before
    it, and neither that cycle nor any later one produces a job. *)
Theorem scheduler_panics_when_list_fails unmarshal
    (before : list (list Deployment)) (later : list (option (list Deployment))) :
  createProgressUpdateJobs unmarshal ((Some <$> before) ++ None :: later)
  = (flat_map (jobsOfCycle unmarshal) before, Panicked).
Proof.
  rewrite createProgressUpdateJobs_app. simpl. by rewrite app_nil_r.
Qed.

(** While every [List] call succeeds the scheduler stays in its loop and
    sends the jobs of every cycle. *)
Lemma scheduler_keeps_scheduling unmarshal (cycles : list (list Deployment)) :
  createProgressUpdateJobs unmarshal (Some <$> cycles)
  = (flat_map (jobsOfCycle unmarshal) cycles, Scheduling).
Proof.
  rewrite <- (app_nil_r (Some <$> cycles)), createProgressUpdateJobs_app.
  simpl. by rewrite app_nil_r.
Qed.

(** C8 as stated fails: after a failed [List] call the scheduler is not in
    its loop any more, and the ready instance of the next cycle gets no
    job. *)
Lemma failed_list_call_is_fatal :
  let readyInstance :=
    Fixtures.instance
      [(annChallenges, Fixtures.marshalStatuses [Fixtures.scoreBoard])] 1 in
  createProgressUpdateJobs Fixtures.unmarshalStatuses [None; Some [readyInstance]]
  = ([], Panicked)
  /\ createProgressUpdateJobs Fixtures.unmarshalStatuses [Some [readyInstance]]
     = ([mkJob "owasp" [Fixtures.scoreBoard]], Scheduling).
Proof. vm_compute. split; reflexivity. Qed.

(** *** Webhook *)

Lemma solvedIn_Permutation statuses1 statuses2 key :
  statuses1 ≡ₚ statuses2 -> solvedIn statuses1 key = solvedIn statuses2 key.
Proof.
  intros Hperm. apply eq_true_iff_eq. rewrite !solvedIn_true.
  by setoid_rewrite Hperm.
Qed.

Lemma sortStable_Permutation statuses : sortStable statuses ≡ₚ statuses.
Proof. apply ScoringFacts.insertionSort_Permutation. Qed.

Lemma solvedIn_added statuses key solvedAt :
  solvedIn (sortStable (statuses ++ [mkChallengeStatus key solvedAt])) key = true.
Proof.
  rewrite (solvedIn_Permutation _ _ _ (sortStable_Permutation _)).
  apply solvedIn_true. exists (mkChallengeStatus key solvedAt).
  split; [|done]. apply elem_of_app. right. by left.
Qed.

Lemma annotations_distinct :
  annChallenges <> annContinueCodeFindIt
  /\ annChallenges <> annContinueCodeFixIt
  /\ annContinueCodeFindIt <> annContinueCodeFixIt.
Proof. split_and!; apply String.eqb_neq; reflexivity. Qed.

Section WebhookFacts.
Variable marshal : list ChallengeStatus -> string.
Variable unmarshal : string -> list ChallengeStatus * bool.

(** What [PersistProgress] leaves on the deployment of the team. *)
Lemma PersistProgress_lookup (cluster : Cluster) team deployment statuses findIt fixIt :
  cluster !! deploymentName team = Some deployment ->
  exists deployment',
    PersistProgress marshal cluster team statuses findIt fixIt
      !! deploymentName team = Some deployment'
    /\ Annotations deployment' !! annChallenges = Some (marshal statuses)
    /\ index (Annotations deployment') annContinueCodeFindIt = findIt
    /\ index (Annotations deployment') annContinueCodeFixIt = fixIt
    /\ Labels deployment' = Labels deployment
    /\ ReadyReplicas deployment' = ReadyReplicas deployment.
Proof.
  intros Hget. unfold PersistProgress. rewrite Hget.
  destruct annotations_distinct as (Hne1 & Hne2 & Hne3).
  eexists. split; [apply lookup_insert_eq|]. unfold index. simpl.
  split_and!; [|..|done|done].
  - rewrite lookup_insert_ne, lookup_insert_ne, lookup_insert_eq; done.
  - rewrite lookup_insert_ne, lookup_insert_eq; done.
  - rewrite lookup_insert_eq. done.
Qed.

Lemma PersistProgress_other (cluster : Cluster) team statuses findIt fixIt name :
  name <> deploymentName team ->
  PersistProgress marshal cluster team statuses findIt fixIt !! name = cluster !! name.
Proof.
  intros Hne. unfold PersistProgress.
  destruct (cluster !! deploymentName team); [|done].
  by rewrite lookup_insert_ne.
Qed.

Lemma PersistProgress_persisted (cluster : Cluster) team deployment statuses findIt fixIt :
  cluster !! deploymentName team = Some deployment ->
  fst (unmarshal (marshal statuses)) = statuses ->
  exists deployment',
    PersistProgress marshal cluster team statuses findIt fixIt
      !! deploymentName team = Some deployment'
    /\ persistedChallenges unmarshal deployment' = statuses
    /\ index (Annotations deployment') annContinueCodeFindIt = findIt
    /\ index (Annotations deployment') annContinueCodeFixIt = fixIt.
Proof.
  intros Hget Hroundtrip.
  destruct (PersistProgress_lookup cluster team deployment statuses findIt fixIt Hget)
    as (deployment' & Hget' & Hchallenges & HfindIt & HfixIt & _).
  exists deployment'. split_and!; [done| |done..].
  unfold persistedChallenges. by rewrite Hchallenges.
Qed.

(** A body that is not valid JSON is answered with 400, a team without a
    deployment with 500; neither changes the cluster. *)
Lemma webhook_invalid_json (cluster : Cluster) team currentProgress :
  webhookHandler marshal unmarshal cluster team None currentProgress
  = (badRequest, cluster).
Proof. reflexivity. Qed.

Lemma webhook_without_deployment (cluster : Cluster) team webhook currentProgress :
  cluster !! deploymentName team = None ->
  webhookHandler marshal unmarshal cluster team (Some webhook) currentProgress
  = (internalServerError, cluster).
Proof. intros Hget. unfold webhookHandler. by rewrite Hget. Qed.

(** C6 as the code has it: for a challenge key of neither bonus category and
    a team whose deployment exists, the handler answers 200; a key that is
    already recorded leaves the cluster as it is; a key that is not is added
    once, the list being persisted stably sorted by solved-at; and handling
    the same webhook again changes nothing more. *)
Theorem webhook_adds_if_absent (cluster : Cluster) team webhook currentProgress
    deployment :
  let key := Challenge (Solution webhook) in
  let entry := {| Key := key; SolvedAt := IssuedOn (Solution webhook) |} in
  let old := persistedChallenges unmarshal deployment in
  let new := sortStable (old ++ [entry]) in
  let once := webhookHandler marshal unmarshal cluster team (Some webhook)
                currentProgress in
  cluster !! deploymentName team = Some deployment ->
  String.prefix "find-it-" key = false ->
  String.prefix "fix-it-" key = false ->
  (solvedIn old key = false -> fst (unmarshal (marshal new)) = new) ->
  fst once = ok
  /\ (solvedIn old key = true -> snd once = cluster)
  /\ (solvedIn old key = false ->
      snd once
      = PersistProgress marshal cluster team new
          (index (Annotations deployment) annContinueCodeFindIt)
          (index (Annotations deployment) annContinueCodeFixIt)
      /\ new ≡ₚ old ++ [entry]
      /\ exists deployment',
           snd once !! deploymentName team = Some deployment'
           /\ persistedChallenges unmarshal deployment' = new)
  /\ webhookHandler marshal unmarshal (snd once) team (Some webhook) currentProgress
     = (ok, snd once).
Proof.
  intros key entry old new once Hget HfindIt HfixIt Hroundtrip.
  assert (Honce : once
                  = if solvedIn old key then (ok, cluster)
                    else (ok, PersistProgress marshal cluster team new
                                (index (Annotations deployment) annContinueCodeFindIt)
                                (index (Annotations deployment) annContinueCodeFixIt))).
  { subst once. unfold webhookHandler. rewrite Hget.
    fold key. rewrite HfindIt, HfixIt. fold old. by destruct (solvedIn old key). }
  destruct (solvedIn old key) eqn:Hsolved.
  - rewrite Honce. simpl. split_and!; [done|done|done|].
    exact Honce.
  - specialize (Hroundtrip eq_refl).
    destruct (PersistProgress_persisted cluster team deployment new
                (index (Annotations deployment) annContinueCodeFindIt)
                (index (Annotations deployment) annContinueCodeFixIt)
                Hget Hroundtrip)
      as (deployment' & Hget' & Hpersisted & _).
    rewrite Honce. simpl. split_and!; [done|done| |].
    + intros _. split_and!; [done|apply sortStable_Permutation|].
      by exists deployment'.
    + unfold webhookHandler. rewrite Hget'. fold key.
      rewrite HfindIt, HfixIt, Hpersisted.
      subst new entry. by rewrite solvedIn_added.
Qed.

(** C10: for a key of a bonus category and a team whose deployment exists,
    the handler persists the list that was persisted, the freshly fetched
    code of the category of the key, and the code the deployment held for
    the other category; when the fetch fails it persists nothing. *)
Theorem bonus_webhook_updates_only_its_code (cluster : Cluster) team webhook
    currentProgress deployment :
  let key := Challenge (Solution webhook) in
  let old := persistedChallenges unmarshal deployment in
  let findIt :=
    if String.prefix "find-it-" key then ContinueCodeFindIt currentProgress
    else index (Annotations deployment) annContinueCodeFindIt in
  let fixIt :=
    if String.prefix "find-it-" key
    then index (Annotations deployment) annContinueCodeFixIt
    else ContinueCodeFixIt currentProgress in
  cluster !! deploymentName team = Some deployment ->
  String.prefix "find-it-" key = true \/ String.prefix "fix-it-" key = true ->
  fst (unmarshal (marshal old)) = old ->
  webhookHandler marshal unmarshal cluster team (Some webhook) (Some currentProgress)
  = (ok, PersistProgress marshal cluster team old findIt fixIt)
  /\ webhookHandler marshal unmarshal cluster team (Some webhook) None
     = (internalServerError, cluster)
  /\ (exists deployment',
        PersistProgress marshal cluster team old findIt fixIt
          !! deploymentName team = Some deployment'
        /\ persistedChallenges unmarshal deployment' = old
        /\ index (Annotations deployment') annContinueCodeFindIt = findIt
        /\ index (Annotations deployment') annContinueCodeFixIt = fixIt)
  /\ (forall name, name <> deploymentName team ->
        PersistProgress marshal cluster team old findIt fixIt !! name
        = cluster !! name).
Proof.
  intros key old findIt fixIt Hget Hbonus Hroundtrip.
  split_and!.
  - unfold webhookHandler. rewrite Hget. fold key old. subst findIt fixIt.
    destruct (String.prefix "find-it-" key); [done|].
    destruct Hbonus as [Hbonus | ->]; [done|done].
  - unfold webhookHandler. rewrite Hget. fold key.
    destruct (String.prefix "find-it-" key); [done|].
    destruct Hbonus as [Hbonus | ->]; [done|done].
  - by apply (PersistProgress_persisted cluster team deployment).
  - intros name Hne. by apply PersistProgress_other.
Qed.

(** In the NoOp case the worker touches neither the instance nor the
    cluster while both bonus codes are the persisted ones. *)
Lemma worker_NoOp_unchanged (encode : list Z -> option string)
    (challengeIdLookup : gmap string Z) (cluster : Cluster) job currentProgress
    refetched deployment :
  cluster !! deploymentName (Team job) = Some deployment ->
  CompareChallengeStates (Challenges currentProgress) (LastChallengeProgress job) = NoOp ->
  ContinueCodeFindIt currentProgress
  = index (Annotations deployment) annContinueCodeFindIt ->
  ContinueCodeFixIt currentProgress
  = index (Annotations deployment) annContinueCodeFixIt ->
  workOnProgressUpdate marshal encode challengeIdLookup cluster job
    (Some currentProgress) refetched
  = ([], cluster).
Proof.
  intros Hget Hnoop HfindIt HfixIt. unfold workOnProgressUpdate.
  rewrite Hget, Hnoop, HfindIt, HfixIt, !String.eqb_refl. done.
Qed.

End WebhookFacts.

(** C6 as stated fails: a FindIt key that is not recorded is answered with
    200 and is not added to the persisted list. *)
Lemma bonus_key_is_not_added :
  let webhook :=
    Fixtures.solved "find-it-loginAdminChallenge" "2024-05-01T12:30:00.000Z" in
  let once :=
    webhookHandler Fixtures.marshalStatuses Fixtures.unmarshalStatuses
      Fixtures.owaspCluster "owasp" (Some webhook) (Some Fixtures.liveProgress) in
  persistedChallenges Fixtures.unmarshalStatuses Fixtures.owaspDeployment
  = [Fixtures.scoreBoard]
  /\ solvedIn [Fixtures.scoreBoard] (Challenge (Solution webhook)) = false
  /\ fst once = ok
  /\ persistedChallenges Fixtures.unmarshalStatuses
       <$> (snd once !! deploymentName "owasp")
     = Some [Fixtures.scoreBoard].
Proof. vm_compute. split_and!; reflexivity. Qed.

Lemma webhook_adds_if_absent_witness :
  let webhook :=
    Fixtures.solved "errorHandlingChallenge" "2024-05-01T09:15:00.000Z" in
  let once :=
    webhookHandler Fixtures.marshalStatuses Fixtures.unmarshalStatuses
      Fixtures.owaspCluster "owasp" (Some webhook) None in
  fst once = ok
  /\ persistedChallenges Fixtures.unmarshalStatuses
       <$> (snd once !! deploymentName "owasp")
     = Some [Fixtures.errorHandling; Fixtures.scoreBoard]
  /\ webhookHandler Fixtures.marshalStatuses Fixtures.unmarshalStatuses
       (snd once) "owasp" (Some webhook) None
     = (ok, snd once).
Proof.
  intros webhook once.
  destruct (webhook_adds_if_absent Fixtures.marshalStatuses
              Fixtures.unmarshalStatuses Fixtures.owaspCluster "owasp" webhook
              None Fixtures.owaspDeployment)
    as (Hok & _ & _ & Htwice).
  - vm_compute. reflexivity.
  - reflexivity.
  - reflexivity.
  - intros _. vm_compute. reflexivity.
  - split_and!; [exact Hok|vm_compute; reflexivity|exact Htwice].
Defined.

Lemma bonus_webhook_updates_only_its_code_witness :
  let webhook :=
    Fixtures.solved "find-it-loginAdminChallenge" "2024-05-01T12:30:00.000Z" in
  webhookHandler Fixtures.marshalStatuses Fixtures.unmarshalStatuses
    Fixtures.owaspCluster "owasp" (Some webhook) (Some Fixtures.liveProgress)
  = (ok, PersistProgress Fixtures.marshalStatuses Fixtures.owaspCluster "owasp"
           [Fixtures.scoreBoard] "findItCode2" "fixItCode1").
Proof.
  intros webhook.
  destruct (bonus_webhook_updates_only_its_code Fixtures.marshalStatuses
              Fixtures.unmarshalStatuses Fixtures.owaspCluster "owasp" webhook
              Fixtures.liveProgress Fixtures.owaspDeployment)
    as (Hhandled & _).
  - vm_compute. reflexivity.
  - left. reflexivity.
  - vm_compute. reflexivity.
  - exact Hhandled.
Defined.

End WatchdogFacts.

(** * Further properties of the scoring package *)

Module ScoringServiceFacts.
Import Go GoFacts Scoring ScoringFacts.

(** *** Comparing scores *)

Lemma keysEqualFrom_spec challenges other i :
  (i + length challenges)%nat = length other ->
  keysEqualFrom i challenges other
  = Some (bool_decide (Key <$> challenges = Key <$> drop i other)).
Proof.
  revert i. induction challenges as [|c challenges IH]; intros i Hlen;
    cbn [keysEqualFrom]; simpl in Hlen.
  - rewrite drop_ge by lia. done.
  - destruct (other !! i) as [o|] eqn:Ho.
    2:{ apply lookup_ge_None in Ho. lia. }
    rewrite (drop_S _ _ _ Ho), !fmap_cons.
    destruct (String.eqb_spec (Key c) (Key o)) as [Heq | Hne].
    + rewrite IH by lia. f_equal. apply bool_decide_ext.
      rewrite Heq. split; [by intros ->|by intros [= ->]].
    + f_equal. symmetry. apply bool_decide_eq_false. by intros [= ? _].
Qed.

Lemma EqualsIgnoringLastUpdate_decide (t other : TeamScore) :
  EqualsIgnoringLastUpdate t other
  = Some (bool_decide
            (Name t = Name other /\ Score t = Score other
             /\ Position t = Position other
             /\ Key <$> Challenges t = Key <$> Challenges other
             /\ InstanceReadiness t = InstanceReadiness other)).
Proof.
  unfold EqualsIgnoringLastUpdate.
  destruct (String.eqb_spec (Name t) (Name other)) as [Hname|Hname]; simpl.
  2:{ f_equal. symmetry. apply bool_decide_eq_false. tauto. }
  destruct (Z.eqb_spec (Score t) (Score other)) as [Hscore|Hscore]; simpl.
  2:{ f_equal. symmetry. apply bool_decide_eq_false. tauto. }
  destruct (Z.eqb_spec (Position t) (Position other)) as [Hpos|Hpos]; simpl.
  2:{ f_equal. symmetry. apply bool_decide_eq_false. tauto. }
  destruct (Nat.eqb_spec (length (Challenges t)) (length (Challenges other)))
    as [Hlen|Hlen]; simpl.
  2:{ f_equal. symmetry. apply bool_decide_eq_false.
      intros (_ & _ & _ & Hkeys & _). apply Hlen.
      by rewrite <- (length_fmap Key (Challenges t)), Hkeys, length_fmap. }
  rewrite keysEqualFrom_spec by done. rewrite drop_0.
  destruct (bool_decide_reflect (Key <$> Challenges t = Key <$> Challenges other))
    as [Hkeys|Hkeys].
  - f_equal.
    destruct (InstanceReadiness t), (InstanceReadiness other); simpl;
      symmetry; (apply bool_decide_eq_true || apply bool_decide_eq_false);
      intuition congruence.
  - f_equal. symmetry. apply bool_decide_eq_false. tauto.
Qed.

(** [EqualsIgnoringLastUpdate] never indexes out of range, and holds exactly
    when name, score, position, the sequence of challenge keys and the
    readiness agree; the update time and the solve times play no part. *)
Theorem EqualsIgnoringLastUpdate_spec (t other : TeamScore) :
  EqualsIgnoringLastUpdate t other
  = Some (bool_decide
            (Name t = Name other /\ Score t = Score other
             /\ Position t = Position other
             /\ Key <$> Challenges t = Key <$> Challenges other
             /\ InstanceReadiness t = InstanceReadiness other)).
Proof. apply EqualsIgnoringLastUpdate_decide. Qed.

(** *** The catalog lookup *)

Lemma challengesMapOf_fold juiceShopChallenges (m : gmap string JuiceShopChallenge) key :
  fold_left (fun m challenge => <[ChallengeKey challenge := challenge]> m)
            juiceShopChallenges m !! key
  = match last (filter (fun challenge => ChallengeKey challenge = key)
                       juiceShopChallenges) with
    | Some challenge => Some challenge
    | None => m !! key
    end.
Proof.
  revert m. induction juiceShopChallenges as [|c l IH]; intros m; simpl; [done|].
  rewrite IH, filter_cons. destruct (decide (ChallengeKey c = key)) as [Heq|Hne].
  - rewrite last_cons. destruct (last (filter _ l)); [done|].
    by rewrite <- Heq, lookup_insert_eq.
  - destruct (last (filter _ l)); [done|]. by rewrite lookup_insert_ne.
Qed.

(** The catalog lookup answers a key with the last challenge of the bundle
    that has it, and with nothing exactly when no challenge has it. *)
Theorem challengesMapOf_lookup juiceShopChallenges key :
  challengesMapOf juiceShopChallenges !! key
  = last (filter (fun challenge => ChallengeKey challenge = key) juiceShopChallenges)
  /\ (challengesMapOf juiceShopChallenges !! key = None
      <-> key ∉ ChallengeKey <$> juiceShopChallenges)
  /\ (forall challenge,
        challengesMapOf juiceShopChallenges !! key = Some challenge ->
        ChallengeKey challenge = key /\ challenge ∈ juiceShopChallenges).
Proof.
  unfold challengesMapOf. rewrite challengesMapOf_fold, lookup_empty.
  set (hits := filter (fun challenge => ChallengeKey challenge = key)
                      juiceShopChallenges).
  assert (Hlast : forall challenge, last hits = Some challenge ->
            ChallengeKey challenge = key /\ challenge ∈ juiceShopChallenges).
  { intros challenge Hl. apply last_Some_elem_of in Hl.
    by apply list_elem_of_filter in Hl. }
  split_and!.
  - by destruct (last hits).
  - destruct (last hits) as [challenge|] eqn:Hl.
    + split; [done|]. intros Hnot. exfalso. apply Hnot.
      destruct (Hlast _ eq_refl) as [<- Hin]. by apply list_elem_of_fmap_2.
    + split; [|done]. intros _ (c & -> & Hin)%list_elem_of_fmap.
      apply last_None in Hl.
      assert (c ∈ hits) as Hc by by apply list_elem_of_filter.
      rewrite Hl in Hc. by apply elem_of_nil in Hc.
  - intros challenge Hc. apply Hlast. by destruct (last hits).
Qed.

(** *** Positions in closed form *)

Lemma countHigher_app score l1 l2 :
  countHigher score (l1 ++ l2) = countHigher score l1 + countHigher score l2.
Proof. unfold countHigher. rewrite filter_app, length_app. lia. Qed.

Lemma countHigher_none score l :
  Forall (fun t => Score t <= score) l -> countHigher score l = 0.
Proof.
  unfold countHigher. induction 1 as [|t l Ht Hl IH]; [done|].
  rewrite filter_cons. destruct (decide (score < Score t)); [lia|done].
Qed.

Lemma countHigher_all score l :
  Forall (fun t => score < Score t) l -> countHigher score l = Z.of_nat (length l).
Proof.
  unfold countHigher. induction 1 as [|t l Ht Hl IH]; [done|].
  rewrite filter_cons. destruct (decide (score < Score t)); [|lia].
  simpl length. lia.
Qed.

Lemma countHigher_Permutation score l1 l2 :
  l1 ≡ₚ l2 -> countHigher score l1 = countHigher score l2.
Proof. unfold countHigher. by intros ->. Qed.

Lemma setPositions_count_after rest pre p position :
  StronglySorted scoreDescending ((pre ++ [p]) ++ rest) ->
  position = 1 + countHigher (Score p) (pre ++ [p]) ->
  forall t, t ∈ setPositions (Some p) (length (pre ++ [p])) position rest ->
  Position t = 1 + countHigher (Score t) ((pre ++ [p]) ++ rest).
Proof.
  revert pre p position.
  induction rest as [|t0 rest IH]; intros pre p position Hsorted Hposition t Ht.
  { by apply elem_of_nil in Ht. }
  pose proof Hsorted as (Hcross & Hpre & Hrest)%StronglySorted_app.
  apply StronglySorted_inv in Hrest as [Hrest Hbelow].
  apply StronglySorted_app in Hpre as (Hp & _ & _).
  assert (Score t0 <= Score p) as Hle.
  { apply (Hcross p t0); [apply elem_of_app; right; by left|by left]. }
  cbn [setPositions] in Ht.
  set (position' := if Score t0 <? Score p
                    then Z.of_nat (length (pre ++ [p])) + 1 else position) in Ht.
  assert (countHigher (Score t0) (t0 :: rest) = 0) as Hzero.
  { apply countHigher_none. constructor; [lia|done]. }
  assert (position' = 1 + countHigher (Score t0) (pre ++ [p])) as Hposition'.
  { subst position'. destruct (Score t0 <? Score p) eqn:Hlt.
    - rewrite countHigher_all; [lia|].
      apply Forall_forall. intros x [Hx | Hx%list_elem_of_singleton]%elem_of_app.
      + specialize (Hp x p Hx ltac:(by left)). unfold scoreDescending in Hp. lia.
      + subst x. lia.
    - assert (Score t0 = Score p) as -> by lia. done. }
  apply elem_of_cons in Ht as [-> | Ht].
  - simpl. rewrite countHigher_app, Hzero. lia.
  - replace (S (length (pre ++ [p]))) with (length ((pre ++ [p]) ++ [t0])) in Ht
      by (rewrite (length_app _ [t0]); simpl; lia).
    rewrite (cons_middle t0), (assoc (++)). rewrite (cons_middle t0), (assoc (++)) in Hsorted.
    apply (IH (pre ++ [p]) t0 position'); [done| |done].
    rewrite Hposition', (countHigher_app _ _ [t0]).
    assert (countHigher (Score t0) [t0] = 0) as ->; [|lia].
    apply countHigher_none. constructor; [lia|done].
Qed.

Lemma setPositions_count sorted t :
  StronglySorted scoreDescending sorted ->
  t ∈ setPositions None 0 1 sorted ->
  Position t = 1 + countHigher (Score t) sorted.
Proof.
  intros Hsorted Ht. destruct sorted as [|t0 rest]; [by apply elem_of_nil in Ht|].
  pose proof Hsorted as [_ Hbelow]%StronglySorted_inv.
  assert (countHigher (Score t0) (t0 :: rest) = 0) as Hzero.
  { apply countHigher_none. constructor; [lia|done]. }
  cbn [setPositions] in Ht. apply elem_of_cons in Ht as [-> | Ht].
  - simpl. lia.
  - apply (setPositions_count_after rest [] t0 1); [done| |done].
    simpl. assert (countHigher (Score t0) [t0] = 0) as ->; [|lia].
    apply countHigher_none. constructor; [lia|done].
Qed.

(** The ranking keeps every team, changing nothing but the position, and
    the position of a team is one more than the number of teams with a
    strictly higher score, whatever the positions were before and whatever
    the order of iteration. *)
Theorem position_counts_higher_scores (teamScores : list TeamScore) :
  let ranked := sortTeamsByScoreAndCalculatePositions teamScores in
  (fun t => withPosition t 0) <$> ranked ≡ₚ (fun t => withPosition t 0) <$> teamScores
  /\ (forall t, t ∈ ranked ->
        Position t = 1 + countHigher (Score t) teamScores).
Proof.
  unfold sortTeamsByScoreAndCalculatePositions. split.
  - rewrite setPositions_erase. by rewrite insertionSort_Permutation.
  - intros t Ht.
    rewrite (setPositions_count _ t (ranked_scores_descending teamScores) Ht).
    f_equal. apply countHigher_Permutation, insertionSort_Permutation.
Qed.

(** *** The score cache *)

Lemma insertLess_fmap {A B} (f : A -> B) (less : B -> B -> bool) x r :
  f <$> insertLess (fun a b => less (f a) (f b)) x r
  = insertLess less (f x) (f <$> r).
Proof.
  induction r as [|e r IH]; [done|]. cbn [insertLess]. rewrite !fmap_cons.
  cbn [insertLess]. destruct (less (f x) (f e)); [|done].
  by rewrite fmap_cons, IH.
Qed.

Lemma insertionSort_fmap {A B} (f : A -> B) (less : B -> B -> bool) l :
  f <$> insertionSort (fun a b => less (f a) (f b)) l
  = insertionSort less (f <$> l).
Proof.
  unfold insertionSort.
  assert (Hfold : forall l acc,
    f <$> fold_left (fun rprefix x => insertLess (fun a b => less (f a) (f b)) x rprefix) l acc
    = fold_left (fun rprefix x => insertLess less x rprefix) (f <$> l) (f <$> acc)).
  { clear l. induction l as [|x l IH]; intros acc; [done|].
    rewrite fmap_cons. cbn [fold_left]. by rewrite IH, insertLess_fmap. }
  assert (Hrev : forall r : list A, f <$> rev r = rev (f <$> r)).
  { induction r as [|x r IH]; [done|]. simpl. by rewrite fmap_app, IH. }
  rewrite Hrev. f_equal. apply (Hfold l []).
Qed.

Lemma setPositions_length prev i position rest :
  length (setPositions prev i position rest) = length rest.
Proof.
  rewrite <- (length_fmap (fun t => withPosition t 0)), setPositions_erase.
  apply length_fmap.
Qed.

Lemma setPositions_closed_form sorted :
  StronglySorted scoreDescending sorted ->
  setPositions None 0 1 sorted
  = (fun t => withPosition t (1 + countHigher (Score t) sorted)) <$> sorted.
Proof.
  intros Hsorted. apply list_eq. intros i. rewrite list_lookup_fmap.
  destruct (setPositions None 0 1 sorted !! i) as [t|] eqn:Ht.
  - destruct (setPositions_lookup _ _ _ _ _ _ Ht) as (t0 & Ht0 & Heq).
    rewrite Ht0. simpl. f_equal. rewrite Heq at 1. f_equal.
    rewrite (setPositions_count sorted t Hsorted) by (by eapply list_elem_of_lookup_2).
    by rewrite Heq.
  - apply lookup_ge_None in Ht. rewrite setPositions_length in Ht.
    apply lookup_ge_None in Ht. by rewrite Ht.
Qed.

Lemma zip_fst_fmap_snd {A B C} (g : B -> C) (l : list (A * B)) :
  zip (fst <$> l) (g <$> (snd <$> l)) = prod_map id g <$> l.
Proof.
  induction l as [|[a b] l IH]; [done|].
  rewrite !fmap_cons. cbn [zip zip_with]. by rewrite IH.
Qed.

Lemma countHigher_withPosition score (f : TeamScore -> Z) l :
  countHigher score ((fun t => withPosition t (f t)) <$> l) = countHigher score l.
Proof.
  unfold countHigher. f_equal. induction l as [|t l IH]; [done|].
  rewrite fmap_cons, !filter_cons. simpl.
  destruct (decide (score < Score t)); simpl; by rewrite IH.
Qed.

(** [rankEntries] ranks the values as [sortTeamsByScoreAndCalculatePositions]
    does, and leaves every value under its key with its position among the
    values. *)
Lemma rankEntries_spec (entries : list (string * TeamScore)) :
  snd <$> rankEntries entries
  = sortTeamsByScoreAndCalculatePositions (snd <$> entries)
  /\ rankEntries entries
     ≡ₚ prod_map id (fun t => withPosition t (1 + countHigher (Score t) (snd <$> entries)))
          <$> entries.
Proof.
  unfold rankEntries, sortTeamsByScoreAndCalculatePositions.
  set (sorted := insertionSort (fun a b => rankLess a.2 b.2) entries).
  assert (Hsnd : snd <$> sorted = insertionSort rankLess (snd <$> entries)).
  { apply (insertionSort_fmap snd rankLess). }
  split.
  - rewrite snd_zip; [by rewrite Hsnd|].
    by rewrite setPositions_length, !length_fmap.
  - rewrite setPositions_closed_form
      by (rewrite Hsnd; apply ranked_scores_descending).
    rewrite zip_fst_fmap_snd.
    assert (Hcount : forall score,
              countHigher score (snd <$> sorted) = countHigher score (snd <$> entries)).
    { intros score. rewrite Hsnd.
      apply countHigher_Permutation, insertionSort_Permutation. }
    rewrite (list_fmap_ext _
               (prod_map id (fun t => withPosition t
                                        (1 + countHigher (Score t) (snd <$> entries))))
               sorted).
    + subst sorted. by rewrite insertionSort_Permutation.
    + intros i [k t] _. unfold prod_map. simpl. by rewrite Hcount.
Qed.

(** *** The order of the ranking on normalised timestamps *)

(** While the latest solves of the teams share one location, the ranked
    sequence is in the order of the specification: score descending, then
    latest solve ascending, then name ascending. *)
Theorem ranking_in_spec_order_when_normalised (teamScores : list TeamScore) :
  normalised teamScores ->
  StronglySorted (fun a b => specLess b a = false)
                 (sortTeamsByScoreAndCalculatePositions teamScores).
Proof.
  intros Hnorm. unfold sortTeamsByScoreAndCalculatePositions.
  rewrite setPositions_closed_form by apply ranked_scores_descending.
  apply (StronglySorted_fmap _ (fun a b => specLess b a = false)
           (fun a b => specLess b a = false)).
  - intros a b Hab. exact Hab.
  - by apply ranked_in_spec_order.
Qed.

(** With distinct team names as well, two iterations of the same map give
    the same ranked sequence. *)
Theorem ranking_deterministic_when_normalised (teamScores1 teamScores2 : list TeamScore) :
  teamScores1 ≡ₚ teamScores2 ->
  normalised teamScores1 ->
  NoDup (Name <$> teamScores1) ->
  sortTeamsByScoreAndCalculatePositions teamScores1
  = sortTeamsByScoreAndCalculatePositions teamScores2.
Proof. apply ranking_independent_of_iteration. Qed.

Section ServiceFacts.
Variable unmarshal : string -> option (list ChallengeProgress).
Variable rangeOrder : gmap string TeamScore -> list (string * TeamScore).
Hypothesis rangeOrder_iterates : forall scores, rangeOrder scores ≡ₚ map_to_list scores.

Lemma rerank_fst (scores : gmap string TeamScore) :
  fst (rerank rangeOrder scores) = rankedIn scores <$> scores.
Proof.
  unfold rerank. cbn [fst].
  destruct (rankEntries_spec (rangeOrder scores)) as [_ Hperm].
  assert (Hkeys : NoDup (fst <$> rangeOrder scores)).
  { rewrite rangeOrder_iterates. apply NoDup_fst_map_to_list. }
  assert (Hnodup : NoDup (fst <$> rankEntries (rangeOrder scores))).
  { rewrite Hperm, <- list_fmap_compose.
    by rewrite (list_fmap_ext _ fst (rangeOrder scores)) by by intros i [k t]. }
  rewrite (list_to_map_proper _ _ Hnodup Hperm).
  rewrite (list_fmap_ext _ (prod_map id (rankedIn scores)) (rangeOrder scores)).
  - rewrite list_to_map_fmap.
    rewrite (list_to_map_proper _ (map_to_list scores) Hkeys (rangeOrder_iterates scores)).
    by rewrite list_to_map_to_list.
  - intros i [k t] _. unfold prod_map, rankedIn. simpl. do 3 f_equal.
    apply countHigher_Permutation. by rewrite rangeOrder_iterates.
Qed.

Lemma values_rankedIn (scores : gmap string TeamScore) :
  snd <$> map_to_list (rankedIn scores <$> scores)
  = rankedIn scores <$> (snd <$> map_to_list scores).
Proof.
  rewrite map_to_list_fmap, <- !list_fmap_compose.
  apply list_fmap_ext. by intros i [k t].
Qed.

(** After a ranking the cache is consistent: the slice is the ranking of the
    values of the map, and the map holds every value it held, each with its
    position among them. *)
Theorem rerank_consistent (scores : gmap string TeamScore) :
  fst (rerank rangeOrder scores) = rankedIn scores <$> scores
  /\ snd (rerank rangeOrder scores)
     = sortTeamsByScoreAndCalculatePositions (snd <$> rangeOrder scores)
  /\ snd (rerank rangeOrder scores)
     ≡ₚ snd <$> map_to_list (fst (rerank rangeOrder scores))
  /\ (forall team t, fst (rerank rangeOrder scores) !! team = Some t ->
        t = rankedIn (fst (rerank rangeOrder scores)) t).
Proof.
  pose proof (rerank_fst scores) as Hfst.
  destruct (rankEntries_spec (rangeOrder scores)) as [Hsnd Hperm].
  split_and!; [done|exact Hsnd| |].
  - rewrite Hfst, values_rankedIn. unfold rerank. cbn [snd].
    rewrite Hperm, <- !list_fmap_compose.
    rewrite (list_fmap_ext _ (rankedIn scores ∘ snd) (rangeOrder scores)).
    + by rewrite rangeOrder_iterates.
    + intros i [k t] _. unfold rankedIn. simpl. do 2 f_equal.
      apply countHigher_Permutation. by rewrite rangeOrder_iterates.
  - intros team t. rewrite Hfst, lookup_fmap.
    destruct (scores !! team) as [t0|]; [|done]. simpl. intros [= <-].
    unfold rankedIn at 2. rewrite values_rankedIn.
    assert (countHigher (Score (rankedIn scores t0))
              (rankedIn scores <$> (snd <$> map_to_list scores))
            = countHigher (Score (rankedIn scores t0)) (snd <$> map_to_list scores))
      as ->.
    { exact (countHigher_withPosition (Score (rankedIn scores t0))
               (fun t => 1 + countHigher (Score t) (snd <$> map_to_list scores))
               (snd <$> map_to_list scores)). }
    done.
Qed.

Lemma calculateScore_fresh calculatedAt d catalog :
  Position (calculateScore unmarshal calculatedAt d catalog) = 0
  /\ Name (calculateScore unmarshal calculatedAt d catalog) = index (Labels d) "team"
  /\ LastUpdate (calculateScore unmarshal calculatedAt d catalog) = calculatedAt.
Proof.
  unfold calculateScore.
  destruct (String.eqb _ ""); [done|].
  destruct (unmarshal _) as [solved|]; [|done].
  by destruct (fold_left _ solved _).
Qed.

Lemma cacheConsistent_ranked (s : ScoringService) team t :
  cacheConsistent s -> currentScores s !! team = Some t -> 1 <= Position t.
Proof.
  intros [_ Hranked] Ht. rewrite (Hranked team t Ht). unfold rankedIn, countHigher.
  simpl. lia.
Qed.

Lemma rerank_cacheConsistent (scores : gmap string TeamScore) updatedAt catalog :
  cacheConsistent
    {| currentScores := fst (rerank rangeOrder scores);
       currentScoresSorted := snd (rerank rangeOrder scores);
       lastUpdate := updatedAt;
       challengesMap := catalog |}.
Proof.
  destruct (rerank_consistent scores) as (_ & _ & Hperm & Hranked).
  split; [exact Hperm|exact Hranked].
Qed.

Lemma handleEvent_stores
    (cachedChallengesMap : gmap string JuiceShopChallenge)
    calculatedAt updatedAt (s : ScoringService) (deployment : Deployment) :
  cacheConsistent s ->
  let score := calculateScore unmarshal calculatedAt deployment cachedChallengesMap in
  let scores := <[Name score := score]> (currentScores s) in
  handleEvent unmarshal rangeOrder cachedChallengesMap calculatedAt updatedAt s
    (Modified deployment)
  = handleEvent unmarshal rangeOrder cachedChallengesMap calculatedAt updatedAt s
      (Added deployment)
  /\ exists s',
       handleEvent unmarshal rangeOrder cachedChallengesMap calculatedAt updatedAt s
         (Added deployment)
       = Some s'
       /\ lastUpdate s' = updatedAt
       /\ challengesMap s' = challengesMap s
       /\ cacheConsistent s'
       /\ currentScores s' !! index (Labels deployment) "team"
          = Some (rankedIn scores score)
       /\ (forall team, team <> index (Labels deployment) "team" ->
             currentScores s' !! team = rankedIn scores <$> currentScores s !! team).
Proof.
  intros Hconsistent score scores. split; [done|].
  destruct (calculateScore_fresh calculatedAt deployment cachedChallengesMap)
    as (Hposition & Hname & _).
  fold score in Hposition, Hname.
  exists {| currentScores := fst (rerank rangeOrder scores);
            currentScoresSorted := snd (rerank rangeOrder scores);
            lastUpdate := updatedAt;
            challengesMap := challengesMap s |}.
  split_and!.
  - unfold handleEvent. fold score. fold scores.
    destruct (currentScores s !! Name score) as [current|] eqn:Hcurrent; [|done].
    rewrite EqualsIgnoringLastUpdate_decide.
    pose proof (cacheConsistent_ranked s _ _ Hconsistent Hcurrent) as Hranked.
    rewrite bool_decide_eq_false_2; [done|].
    intros (_ & _ & Hpos & _). lia.
  - done.
  - done.
  - apply rerank_cacheConsistent.
  - cbn [currentScores]. rewrite rerank_fst, lookup_fmap. subst scores.
    by rewrite <- Hname, lookup_insert_eq.
  - intros team Hne. cbn [currentScores]. rewrite rerank_fst, lookup_fmap.
    subst scores. rewrite lookup_insert_ne by by rewrite Hname. done.
Qed.

(** Once the cache is ranked, an Added or Modified event is never taken
    for a repetition: the entry in the cache carries its position, the
    freshly calculated score carries none, so the comparison fails, the
    score is stored, the board is ranked again and the update time is
    stamped, also when nothing about the team has changed.  The score that
    is stored is calculated with the package variable [cachedChallengesMap]
    as it is when the event is handled, whatever the [challengesMap] of the
    service, which the event leaves as it is. *)
Theorem handleEvent_always_stores
    (cachedChallengesMap : gmap string JuiceShopChallenge)
    calculatedAt updatedAt (s : ScoringService) (deployment : Deployment) :
  cacheConsistent s ->
  let score := calculateScore unmarshal calculatedAt deployment cachedChallengesMap in
  let scores := <[Name score := score]> (currentScores s) in
  handleEvent unmarshal rangeOrder cachedChallengesMap calculatedAt updatedAt s
    (Modified deployment)
  = handleEvent unmarshal rangeOrder cachedChallengesMap calculatedAt updatedAt s
      (Added deployment)
  /\ exists s',
       handleEvent unmarshal rangeOrder cachedChallengesMap calculatedAt updatedAt s
         (Added deployment)
       = Some s'
       /\ lastUpdate s' = updatedAt
       /\ challengesMap s' = challengesMap s
       /\ cacheConsistent s'
       /\ currentScores s' !! index (Labels deployment) "team"
          = Some (rankedIn scores score)
       /\ (forall team, team <> index (Labels deployment) "team" ->
             currentScores s' !! team = rankedIn scores <$> currentScores s !! team).
Proof. apply handleEvent_stores. Qed.

Lemma handleEvent_removes
    (cachedChallengesMap : gmap string JuiceShopChallenge)
    calculatedAt updatedAt (s : ScoringService) (deployment : Deployment) :
  let scores := delete (index (Labels deployment) "team") (currentScores s) in
  exists s',
    handleEvent unmarshal rangeOrder cachedChallengesMap calculatedAt updatedAt s
      (Deleted deployment)
    = Some s'
    /\ lastUpdate s' = updatedAt
    /\ cacheConsistent s'
    /\ currentScores s' !! index (Labels deployment) "team" = None
    /\ (forall team, team <> index (Labels deployment) "team" ->
          currentScores s' !! team = rankedIn scores <$> currentScores s !! team).
Proof.
  intros scores.
  exists {| currentScores := fst (rerank rangeOrder scores);
            currentScoresSorted := snd (rerank rangeOrder scores);
            lastUpdate := updatedAt;
            challengesMap := challengesMap s |}.
  split_and!; [done|done|apply rerank_cacheConsistent| |].
  - cbn [currentScores]. rewrite rerank_fst, lookup_fmap. subst scores.
    by rewrite lookup_delete_eq.
  - intros team Hne. cbn [currentScores]. rewrite rerank_fst, lookup_fmap.
    subst scores. by rewrite lookup_delete_ne.
Qed.

(** A Deleted event removes the team of the deployment from the cache,
    ranks the remaining teams again and stamps the update time, whether or
    not the team was in the cache. *)
Theorem handleEvent_deleted
    (cachedChallengesMap : gmap string JuiceShopChallenge)
    calculatedAt updatedAt (s : ScoringService) (deployment : Deployment) :
  let scores := delete (index (Labels deployment) "team") (currentScores s) in
  exists s',
    handleEvent unmarshal rangeOrder cachedChallengesMap calculatedAt updatedAt s
      (Deleted deployment)
    = Some s'
    /\ lastUpdate s' = updatedAt
    /\ cacheConsistent s'
    /\ currentScores s' !! index (Labels deployment) "team" = None
    /\ (forall team, team <> index (Labels deployment) "team" ->
          currentScores s' !! team = rankedIn scores <$> currentScores s !! team).
Proof. apply handleEvent_removes. Qed.

Lemma handleEvent_consistent (cachedChallengesMap : gmap string JuiceShopChallenge)
    calculatedAt updatedAt (s : ScoringService) event :
  cacheConsistent s ->
  exists s',
    handleEvent unmarshal rangeOrder cachedChallengesMap calculatedAt updatedAt s event
    = Some s'
    /\ cacheConsistent s' /\ challengesMap s' = challengesMap s.
Proof.
  intros Hconsistent. destruct event as [d|d|d|].
  - destruct (handleEvent_stores cachedChallengesMap calculatedAt updatedAt s d
                Hconsistent)
      as (_ & s' & Hs' & _ & Hcatalog & Hc & _).
    by exists s'.
  - destruct (handleEvent_stores cachedChallengesMap calculatedAt updatedAt s d
                Hconsistent)
      as (Hmodified & s' & Hs' & _ & Hcatalog & Hc & _).
    exists s'. by rewrite Hmodified.
  - destruct (handleEvent_removes cachedChallengesMap calculatedAt updatedAt s d)
      as (s' & Hs' & _ & Hc & _).
    exists s'. split_and!; [done..|]. unfold handleEvent in Hs'. by simplify_eq.
  - by exists s.
Qed.

(** From its construction on, whatever events the watchers deliver and
    whatever the package variable [cachedChallengesMap] holds when they are
    handled, the service never panics and its cache stays consistent: the
    ranked slice holds exactly the values of the map, and every cached entry
    has the position it has among them. *)
Theorem watcher_keeps_cache_consistent
    (juiceShopChallenges : list JuiceShopChallenge)
    (initialScores : gmap string TeamScore) (now : Time)
    (events : list (gmap string JuiceShopChallenge * Time * Time * WatchEvent)) :
  exists s',
    startScoringWatcher unmarshal rangeOrder
      (fst (NewScoringServiceWithInitialScores rangeOrder juiceShopChallenges
              initialScores now))
      events
    = Some s'
    /\ cacheConsistent s'
    /\ challengesMap s' = challengesMapOf juiceShopChallenges.
Proof.
  set (s := fst (NewScoringServiceWithInitialScores rangeOrder juiceShopChallenges
                   initialScores now)).
  assert (Hs : cacheConsistent s) by apply rerank_cacheConsistent.
  change (challengesMapOf juiceShopChallenges) with (challengesMap s).
  clearbody s. revert s Hs.
  induction events as [|[[[cachedChallengesMap calculatedAt] updatedAt] event] events IH];
    intros s Hs.
  - by exists s.
  - cbn [startScoringWatcher].
    destruct (handleEvent_consistent cachedChallengesMap calculatedAt updatedAt s
                event Hs)
      as (s1 & -> & Hs1 & Hcatalog).
    destruct (IH s1 Hs1) as (s' & Hs' & Hc' & Hcatalog').
    exists s'. split_and!; [done..|]. by rewrite Hcatalog', Hcatalog.
Qed.

Lemma fold_insert_dom (calc : Time -> Deployment -> TeamScore)
    (items : list (Time * Deployment)) (scores : gmap string TeamScore) :
  dom (fold_left (fun scores '(calculatedAt, juiceShop) =>
                    <[Name (calc calculatedAt juiceShop) := calc calculatedAt juiceShop]> scores)
                 items scores)
  = dom scores ∪ list_to_set ((fun item => Name (calc (fst item) (snd item))) <$> items).
Proof.
  revert scores. induction items as [|[c d] items IH]; intros scores.
  - simpl. by rewrite (right_id_L ∅ (∪)).
  - cbn [fold_left]. rewrite IH, dom_insert_L, fmap_cons. cbn [list_to_set fst snd].
    by rewrite (comm_L (∪) {[_]} (dom scores)), (assoc_L (∪)).
Qed.

Lemma fold_insert_lookup_ne (calc : Time -> Deployment -> TeamScore)
    (items : list (Time * Deployment)) (scores : gmap string TeamScore) team :
  Forall (fun item => Name (calc (fst item) (snd item)) <> team) items ->
  fold_left (fun scores '(calculatedAt, juiceShop) =>
               <[Name (calc calculatedAt juiceShop) := calc calculatedAt juiceShop]> scores)
            items scores !! team
  = scores !! team.
Proof.
  intros Hitems. revert scores.
  induction Hitems as [|[c d] items Hne _ IH]; intros scores; [done|].
  cbn [fold_left]. rewrite IH. by apply lookup_insert_ne.
Qed.

Lemma withPosition_rankedIn (scores : gmap string TeamScore) t :
  withPosition (rankedIn scores t) 0 = withPosition t 0.
Proof. done. Qed.

Lemma withPosition_fresh t : Position t = 0 -> withPosition t 0 = t.
Proof. destruct t. simpl. by intros ->. Qed.

(** [CalculateAndCacheScoreBoard] returns the error of a failed [List] and
    leaves the service alone; otherwise it caches a score for the team of
    every listed deployment beside the teams already cached and ranks the
    board consistently.  It leaves the update time of the board as it was,
    which is what [WaitForUpdatesNewerThan] reads.  The entry of a listed
    team is the score calculated with the [challengesMap] of the service for
    the deployment listed last for that team, with its position; it carries
    the time of its calculation, so that [WaitForTeamUpdatesNewerThan] with
    an older watermark returns it at once.  The entries of the other teams
    change in their position only. *)
Theorem CalculateAndCacheScoreBoard_spec (s : ScoringService) :
  (forall err,
     CalculateAndCacheScoreBoard unmarshal rangeOrder s (inl err) = (Some err, s))
  /\ (forall items,
        let result := CalculateAndCacheScoreBoard unmarshal rangeOrder s (inr items) in
        let teamOf (item : Time * Deployment) := index (Labels (snd item)) "team" in
        fst result = None
        /\ lastUpdate (snd result) = lastUpdate s
        /\ cacheConsistent (snd result)
        /\ dom (currentScores (snd result))
           = dom (currentScores s) ∪ list_to_set (teamOf <$> items)
        /\ (forall before calculatedAt juiceShop after,
              items = before ++ (calculatedAt, juiceShop) :: after ->
              Forall (fun item => teamOf item <> index (Labels juiceShop) "team") after ->
              exists score,
                currentScores (snd result) !! index (Labels juiceShop) "team"
                = Some score
                /\ withPosition score 0
                   = calculateScore unmarshal calculatedAt juiceShop (challengesMap s)
                /\ LastUpdate score = calculatedAt
                /\ forall env lastSeenUpdate,
                     teamScoreAt env 0 = Some score ->
                     After calculatedAt lastSeenUpdate = true ->
                     WaitForTeamUpdatesNewerThan env lastSeenUpdate
                     = Some (Some score, 0))
        /\ (forall team, team ∉ teamOf <$> items ->
              (fun t => withPosition t 0) <$> currentScores (snd result) !! team
              = (fun t => withPosition t 0) <$> currentScores s !! team)).
Proof.
  split; [done|]. intros items result teamOf. subst result.
  unfold CalculateAndCacheScoreBoard. cbn [fst snd lastUpdate currentScores].
  set (calc := fun c d => calculateScore unmarshal c d (challengesMap s)).
  set (scores := fold_left _ items (currentScores s)).
  assert (Hnames : forall item, Name (calc (fst item) (snd item)) = teamOf item).
  { intros [c d]. apply calculateScore_fresh. }
  split_and!; [done|done|apply rerank_cacheConsistent| | |].
  - rewrite rerank_fst, dom_fmap_L. subst scores.
    rewrite (fold_insert_dom calc).
    f_equal. f_equal. apply list_fmap_ext. intros i item _. apply Hnames.
  - intros before calculatedAt juiceShop after -> Hafter.
    destruct (calculateScore_fresh calculatedAt juiceShop (challengesMap s))
      as (Hposition & Hname & Hupdate).
    fold (calc calculatedAt juiceShop) in Hposition, Hname, Hupdate.
    assert (Hstored : scores !! index (Labels juiceShop) "team"
                      = Some (calc calculatedAt juiceShop)).
    { subst scores. rewrite fold_left_app. cbn [fold_left].
      rewrite (fold_insert_lookup_ne calc).
      - by rewrite <- Hname, lookup_insert_eq.
      - eapply Forall_impl; [exact Hafter|]. intros item Hitem.
        by rewrite Hnames. }
    exists (rankedIn scores (calc calculatedAt juiceShop)).
    split_and!.
    + by rewrite rerank_fst, lookup_fmap, Hstored.
    + rewrite withPosition_rankedIn. by apply withPosition_fresh.
    + exact Hupdate.
    + intros env lastSeenUpdate Henv Hafter'.
      unfold WaitForTeamUpdatesNewerThan, newerScore. rewrite Henv.
      cbn [rankedIn withPosition LastUpdate]. by rewrite Hupdate, Hafter'.
  - intros team Hteam. rewrite rerank_fst, lookup_fmap. subst scores.
    rewrite (fold_insert_lookup_ne calc).
    + by destruct (currentScores s !! team).
    + apply Forall_forall. intros item Hitem Heq. apply Hteam.
      rewrite <- Heq, Hnames. by apply list_elem_of_fmap_2.
Qed.

Lemma startScoringWatcher_consistent (s : ScoringService)
    (events : list (gmap string JuiceShopChallenge * Time * Time * WatchEvent)) :
  cacheConsistent s ->
  exists s',
    startScoringWatcher unmarshal rangeOrder s events = Some s'
    /\ cacheConsistent s'.
Proof.
  revert s.
  induction events as [|[[[cachedChallengesMap calculatedAt] updatedAt] event] events IH];
    intros s Hs.
  - by exists s.
  - cbn [startScoringWatcher].
    destruct (handleEvent_consistent cachedChallengesMap calculatedAt updatedAt s
                event Hs)
      as (s1 & -> & Hs1 & _).
    by apply IH.
Qed.

(** The scoring worker panics exactly when one of its watches cannot be
    opened; as long as every watch opens, closed channels and restarts leave
    the cache consistent. *)
Theorem StartingScoringWorker_spec (s : ScoringService)
    (watches :
       list (option (list (gmap string JuiceShopChallenge * Time * Time * WatchEvent)))) :
  cacheConsistent s ->
  (StartingScoringWorker unmarshal rangeOrder s watches = None <-> None ∈ watches)
  /\ (forall s', StartingScoringWorker unmarshal rangeOrder s watches = Some s' ->
        cacheConsistent s').
Proof.
  revert s. induction watches as [|[events|] watches IH]; intros s Hs.
  - split; [|by intros s' [= <-]]. split; [done|by intros ?%elem_of_nil].
  - cbn [StartingScoringWorker].
    destruct (startScoringWatcher_consistent s events Hs) as (s1 & -> & Hs1).
    destruct (IH s1 Hs1) as [Hnone Hsome]. split; [|done].
    rewrite Hnone, elem_of_cons. split; [by right|]. by intros [?|?].
  - split; [|done]. split; [by left|done].
Qed.

Lemma scoreLoop_names catalog solved score names :
  snd (fold_left (scoreStep catalog) solved (score, names))
  = names ++ filter (fun entry => is_Some (catalog !! Key entry)) solved.
Proof.
  revert score names. induction solved as [|entry solved IH]; intros score names.
  - by rewrite app_nil_r.
  - cbn [fold_left]. rewrite filter_cons. unfold scoreStep at 2.
    destruct (catalog !! Key entry) as [challenge|] eqn:Hentry.
    + rewrite IH, decide_True by eauto. simpl. by rewrite <- app_assoc.
    + rewrite decide_False by (by intros [? ?]). apply IH.
Qed.

(** For an annotation that decodes, the challenge list of the score holds
    the decoded entries whose key is in the catalog, in their order and with
    their repetitions; the others are left out of the list as they are left
    out of the score. *)
Theorem calculateScore_challenges calculatedAt (d : Deployment) catalog solved :
  index (Annotations d) annChallenges <> ""%string ->
  unmarshal (index (Annotations d) annChallenges) = Some solved ->
  Challenges (calculateScore unmarshal calculatedAt d catalog)
  = filter (fun entry => is_Some (catalog !! Key entry)) solved.
Proof.
  intros Hne Hparse. unfold calculateScore.
  apply String.eqb_neq in Hne. rewrite Hne, Hparse.
  pose proof (scoreLoop_names catalog solved 0 []) as Hnames.
  destruct (fold_left (scoreStep catalog) solved (0, [])) as [score names].
  by simpl in *.
Qed.

End ServiceFacts.

(** *** Long-poll reads *)

Lemma waitLoop_returns env lastSeenUpdate fuel n nextTick :
  0 <= nextTick ->
  deadline env < nextTick + tickInterval * Z.of_nat fuel ->
  exists result t,
    waitLoop (S fuel) env lastSeenUpdate n nextTick = Some (result, t)
    /\ 0 <= t <= deadline env
    /\ match result with
       | Some board =>
           After (lastUpdateAt env t) lastSeenUpdate = true
           /\ board = currentScoresSortedAt env t
       | None => t = deadline env
       end.
Proof.
  revert n nextTick.
  induction fuel as [|fuel IH]; intros n nextTick Hpos Hfuel;
    cbn [waitLoop];
    pose proof (choose_elem_of (pick env n) _
                  (readyCases_nonempty nextTick (ctxDoneAt env))) as Hin;
    apply readyCases_spec in Hin; rewrite earliest_deadline in Hin |- *;
    pose proof (deadline_bounds env) as Hbounds;
    destruct (choose _ _).
  - lia.
  - exists None, (Z.min nextTick (deadline env)). split_and!; [done|lia..].
  - destruct Hin as (d & Hd & Hle).
    exists None, (Z.min nextTick (deadline env)). split_and!; [done|lia|lia|].
    unfold deadline in *. rewrite Hd in *. lia.
  - destruct (After (lastUpdateAt env (Z.min nextTick (deadline env))) lastSeenUpdate)
      eqn:Hafter.
    + eexists _, _. split_and!; [done|lia|lia|done].
    + apply IH; unfold tickInterval in *; lia.
  - exists None, (Z.min nextTick (deadline env)). split_and!; [done|lia..].
  - destruct Hin as (d & Hd & Hle).
    exists None, (Z.min nextTick (deadline env)). split_and!; [done|lia|lia|].
    unfold deadline in *. rewrite Hd in *. lia.
Qed.

(** Whatever the watcher does to the cache meanwhile and whatever [select]
    picks, [WaitForUpdatesNewerThan] returns, no later than the timeout or
    the cancellation; a board it returns was read at a moment at which the
    last update was after the watermark, and nil is returned only at the
    timeout or the cancellation. *)
Theorem WaitForUpdatesNewerThan_total (env : PollEnv) (lastSeenUpdate : Time) :
  exists result t,
    WaitForUpdatesNewerThan env lastSeenUpdate = Some (result, t)
    /\ 0 <= t <= deadline env
    /\ match result with
       | Some board =>
           After (lastUpdateAt env t) lastSeenUpdate = true
           /\ board = currentScoresSortedAt env t
       | None => t = deadline env
       end.
Proof.
  unfold WaitForUpdatesNewerThan. pose proof (deadline_bounds env) as Hbounds.
  destruct (After (lastUpdateAt env 0) lastSeenUpdate) eqn:Hafter.
  - eexists _, _. split_and!; [done|lia|lia|done].
  - change pollFuel with (S 501). apply waitLoop_returns.
    + unfold tickInterval. lia.
    + change (Z.of_nat 501) with 501. unfold tickInterval, maxWaitTime in *. lia.
Qed.

Lemma earliest_teamDeadline env nextTick :
  earliest nextTick (teamCtxDoneAt env) = Z.min nextTick (teamDeadline env).
Proof. unfold earliest, teamDeadline. destruct (teamCtxDoneAt env); lia. Qed.

Lemma teamDeadline_bounds env : 0 <= teamDeadline env <= maxWaitTime.
Proof. unfold teamDeadline, maxWaitTime. destruct (teamCtxDoneAt env); lia. Qed.

Lemma newerScore_Some score lastSeenUpdate found :
  newerScore score lastSeenUpdate = Some found ->
  score = Some found /\ After (LastUpdate found) lastSeenUpdate = true.
Proof.
  unfold newerScore. destruct score as [t|]; [|done].
  destruct (After (LastUpdate t) lastSeenUpdate) eqn:Hafter; [|done].
  by intros [= <-].
Qed.

Lemma waitTeamLoop_returns env lastSeenUpdate fuel n nextTick :
  0 <= nextTick ->
  teamDeadline env < nextTick + tickInterval * Z.of_nat fuel ->
  exists result t,
    waitTeamLoop (S fuel) env lastSeenUpdate n nextTick = Some (result, t)
    /\ 0 <= t <= teamDeadline env
    /\ match result with
       | Some score =>
           teamScoreAt env t = Some score
           /\ After (LastUpdate score) lastSeenUpdate = true
       | None => t = teamDeadline env
       end.
Proof.
  revert n nextTick.
  induction fuel as [|fuel IH]; intros n nextTick Hpos Hfuel;
    cbn [waitTeamLoop];
    pose proof (choose_elem_of (teamPick env n) _
                  (readyCases_nonempty nextTick (teamCtxDoneAt env))) as Hin;
    apply readyCases_spec in Hin; rewrite earliest_teamDeadline in Hin |- *;
    pose proof (teamDeadline_bounds env) as Hbounds;
    destruct (choose _ _).
  - lia.
  - exists None, (Z.min nextTick (teamDeadline env)). split_and!; [done|lia..].
  - destruct Hin as (d & Hd & Hle).
    exists None, (Z.min nextTick (teamDeadline env)). split_and!; [done|lia|lia|].
    unfold teamDeadline in *. rewrite Hd in *. lia.
  - destruct (newerScore (teamScoreAt env (Z.min nextTick (teamDeadline env)))
                lastSeenUpdate) as [score|] eqn:Hnewer.
    + apply newerScore_Some in Hnewer.
      eexists _, _. split_and!; [done|lia|lia|done].
    + apply IH; unfold tickInterval in *; lia.
  - exists None, (Z.min nextTick (teamDeadline env)). split_and!; [done|lia..].
  - destruct Hin as (d & Hd & Hle).
    exists None, (Z.min nextTick (teamDeadline env)). split_and!; [done|lia|lia|].
    unfold teamDeadline in *. rewrite Hd in *. lia.
Qed.

(** [WaitForTeamUpdatesNewerThan] always returns, no later than the timeout
    or the cancellation; a score it returns is the entry of the team at that
    moment and was updated after the watermark; it returns at once when the
    entry is already newer; and for a team that is not in the cache, or whose
    entry is never newer, it returns nil at the timeout or the
    cancellation. *)
Theorem WaitForTeamUpdatesNewerThan_spec (env : TeamPollEnv) (lastSeenUpdate : Time) :
  (exists result t,
     WaitForTeamUpdatesNewerThan env lastSeenUpdate = Some (result, t)
     /\ 0 <= t <= teamDeadline env
     /\ match result with
        | Some score =>
            teamScoreAt env t = Some score
            /\ After (LastUpdate score) lastSeenUpdate = true
        | None => t = teamDeadline env
        end)
  /\ (forall score, teamScoreAt env 0 = Some score ->
        After (LastUpdate score) lastSeenUpdate = true ->
        WaitForTeamUpdatesNewerThan env lastSeenUpdate = Some (Some score, 0))
  /\ ((forall t score, teamScoreAt env t = Some score ->
         After (LastUpdate score) lastSeenUpdate = false) ->
      WaitForTeamUpdatesNewerThan env lastSeenUpdate = Some (None, teamDeadline env)).
Proof.
  assert (Htotal : exists result t,
     WaitForTeamUpdatesNewerThan env lastSeenUpdate = Some (result, t)
     /\ 0 <= t <= teamDeadline env
     /\ match result with
        | Some score =>
            teamScoreAt env t = Some score
            /\ After (LastUpdate score) lastSeenUpdate = true
        | None => t = teamDeadline env
        end).
  { unfold WaitForTeamUpdatesNewerThan.
    pose proof (teamDeadline_bounds env) as Hbounds.
    destruct (newerScore (teamScoreAt env 0) lastSeenUpdate) as [score|] eqn:Hnewer.
    - apply newerScore_Some in Hnewer.
      eexists _, _. split_and!; [done|lia|lia|done].
    - change pollFuel with (S 501). apply waitTeamLoop_returns.
      + unfold tickInterval. lia.
      + change (Z.of_nat 501) with 501. unfold tickInterval, maxWaitTime in *. lia. }
  split_and!; [exact Htotal| |].
  - intros score Hscore Hafter. unfold WaitForTeamUpdatesNewerThan, newerScore.
    by rewrite Hscore, Hafter.
  - intros Hquiet. destruct Htotal as (result & t & -> & _ & Hresult).
    destruct result as [score|]; [|by subst t].
    destruct Hresult as [Hscore Hafter]. by rewrite (Hquiet t score Hscore) in Hafter.
Qed.

End ScoringServiceFacts.

(** * Further properties of the progress watchdog *)

Module WatchdogMoreFacts.
Import Go Watchdog ScoringFacts WatchdogFacts.

(** *** The stable sort *)

Section StableSort.
Context {A : Type} (less : A -> A -> bool).

Lemma insertionSort_snoc data x :
  Scoring.insertionSort less (data ++ [x])
  = rev (Scoring.insertLess less x (rev (Scoring.insertionSort less data))).
Proof.
  unfold Scoring.insertionSort. rewrite fold_left_app. simpl.
  by rewrite rev_involutive.
Qed.

(** Where [insertLess] puts the element: behind the elements it is less
    than, in front of the first one it is not less than. *)
Lemma insertLess_split x r :
  exists r1 r2,
    r = r1 ++ r2
    /\ Scoring.insertLess less x r = r1 ++ x :: r2
    /\ Forall (fun y => less x y = true) r1
    /\ (forall y, head r2 = Some y -> less x y = false).
Proof.
  induction r as [|e r IH].
  - exists [], []. split_and!; [done|done|constructor|done].
  - cbn [Scoring.insertLess]. destruct (less x e) eqn:Hless.
    + destruct IH as (r1 & r2 & -> & -> & Hall & Hhead).
      exists (e :: r1), r2. split_and!; [done|done|by constructor|done].
    + exists [], (e :: r). split_and!; [done|done|constructor|].
      by intros y [= <-].
Qed.

Lemma insertLess_filter (P : A -> Prop) `{!forall y, Decision (P y)} x r :
  (forall y, P x -> P y -> less x y = false) ->
  filter P (Scoring.insertLess less x r) = filter P (x :: r).
Proof.
  intros Hequal. induction r as [|e r IH]; [done|].
  cbn [Scoring.insertLess]. destruct (less x e) eqn:Hless; [|done].
  rewrite filter_cons, IH, !filter_cons.
  destruct (decide (P e)) as [He|He]; [|done].
  destruct (decide (P x)) as [Hx|Hx]; [|done].
  by rewrite (Hequal e Hx He) in Hless.
Qed.

Lemma filter_rev (P : A -> Prop) `{!forall y, Decision (P y)} (l : list A) :
  filter P (rev l) = rev (filter P l).
Proof.
  induction l as [|x l IH]; [done|]. simpl.
  rewrite filter_app, IH, !filter_cons, filter_nil.
  destruct (decide (P x)); [done|]. by rewrite app_nil_r.
Qed.

(** Elements none of which is less than another keep their order. *)
Lemma insertionSort_stable (P : A -> Prop) `{!forall y, Decision (P y)} data :
  (forall x y, P x -> P y -> less x y = false) ->
  filter P (Scoring.insertionSort less data) = filter P data.
Proof.
  intros Hequal. induction data as [|x data IH] using rev_ind; [done|].
  rewrite insertionSort_snoc, filter_rev.
  rewrite insertLess_filter by eauto.
  rewrite filter_app, !filter_cons, filter_nil, filter_rev, IH.
  destruct (decide (P x)); simpl.
  - by rewrite rev_involutive.
  - by rewrite rev_involutive, app_nil_r.
Qed.

End StableSort.

Lemma statusLess_true a b : statusLess a b = true -> notLater a b /\ statusLess b a = false.
Proof.
  unfold statusLess, notLater, String.ltb, String.leb.
  rewrite (String.compare_antisym (SolvedAt b) (SolvedAt a)).
  by destruct (String.compare (SolvedAt a) (SolvedAt b)).
Qed.

Lemma statusLess_false a b : statusLess a b = false <-> notLater b a.
Proof. apply ltb_false_leb. Qed.

Lemma notLater_trans a b c : notLater a b -> notLater b c -> notLater a c.
Proof.
  unfold notLater. intros Hab Hbc. apply Is_true_true.
  apply Is_true_true in Hab, Hbc.
  by apply (transitivity (R := String.le) Hab Hbc).
Qed.

(** [sort.Stable] on a status list: a list of the same entries, in the
    order of their solved-at strings, entries with the same solved-at in the
    order they had. *)
Theorem sortStable_spec (statuses : list ChallengeStatus) :
  sortStable statuses ≡ₚ statuses
  /\ StronglySorted notLater (sortStable statuses)
  /\ (forall solvedAt,
        filter (fun status => SolvedAt status = solvedAt) (sortStable statuses)
        = filter (fun status => SolvedAt status = solvedAt) statuses).
Proof.
  split_and!.
  - apply sortStable_Permutation.
  - apply (insertionSort_sorted statusLess (fun a b => notLater b a)).
    + intros a b c Hab Hbc. by apply (notLater_trans c b a).
    + intros x e Hless. by apply statusLess_true in Hless as [? _].
    + intros x e Hless. by apply statusLess_false.
  - intros solvedAt. apply insertionSort_stable.
    intros x y Hx Hy. apply statusLess_false. unfold notLater.
    rewrite Hx, Hy. apply Is_true_true. by apply (reflexivity (R := String.le)).
Qed.

Lemma sortStable_sorted_id (statuses : list ChallengeStatus) :
  StronglySorted notLater statuses -> sortStable statuses = statuses.
Proof.
  induction statuses as [|x statuses IH] using rev_ind; intros Hsorted; [done|].
  apply StronglySorted_app in Hsorted as (Hcross & Hinit & _).
  unfold sortStable in *. rewrite insertionSort_snoc, IH by done.
  destruct (insertLess_split statusLess x (rev statuses))
    as (r1 & r2 & Hrev & -> & Hall & _).
  destruct r1 as [|y r1].
  - simpl in *. by rewrite <- Hrev, rev_involutive.
  - exfalso. apply Forall_cons in Hall as [Hless _].
    assert (notLater y x) as Hle.
    { apply Hcross; [|by left]. apply list_elem_of_In, in_rev, list_elem_of_In.
      rewrite Hrev. by left. }
    apply statusLess_false in Hle. congruence.
Qed.

(** Where the stable sort puts an entry added at the end of a list. *)
Lemma sortStable_snoc (statuses : list ChallengeStatus) entry :
  exists before after,
    sortStable statuses = before ++ after
    /\ sortStable (statuses ++ [entry]) = before ++ entry :: after
    /\ Forall (fun status => statusLess entry status = true) after
    /\ (forall status, last before = Some status -> notLater status entry).
Proof.
  unfold sortStable. rewrite insertionSort_snoc.
  destruct (insertLess_split statusLess entry
              (rev (Scoring.insertionSort statusLess statuses)))
    as (r1 & r2 & Hrev & -> & Hall & Hhead).
  exists (rev r2), (rev r1). split_and!.
  - by rewrite <- rev_app_distr, <- Hrev, rev_involutive.
  - rewrite rev_app_distr. simpl. by rewrite <- app_assoc.
  - apply Forall_forall. intros y Hy%list_elem_of_In%in_rev%list_elem_of_In.
    rewrite Forall_forall in Hall. by apply Hall.
  - intros y Hlast. apply statusLess_false, Hhead.
    destruct r2 as [|z r2]; [done|]. simpl in Hlast.
    rewrite last_snoc in Hlast. by injection Hlast as ->.
Qed.

(** *** Challenge ids *)

Lemma fillChallengeIdLookup_snoc i catalog challenge (m : gmap string Z) :
  fillChallengeIdLookup i (catalog ++ [challenge]) m
  = <[ChallengeKey challenge := Z.of_nat (i + length catalog) + 1]>
      (fillChallengeIdLookup i catalog m).
Proof.
  revert i m. induction catalog as [|c catalog IH]; intros i m; simpl.
  - by rewrite Nat.add_0_r.
  - rewrite IH. by replace (S i + length catalog)%nat with (i + S (length catalog))%nat by lia.
Qed.

Lemma fillChallengeIdLookup_None i catalog (m : gmap string Z) key :
  fillChallengeIdLookup i catalog m !! key = None
  <-> m !! key = None /\ key ∉ ChallengeKey <$> catalog.
Proof.
  revert i m. induction catalog as [|c catalog IH]; intros i m;
    cbn [fillChallengeIdLookup].
  - rewrite fmap_nil, elem_of_nil. tauto.
  - rewrite IH, fmap_cons, elem_of_cons.
    destruct (decide (ChallengeKey c = key)) as [<-|Hne].
    + rewrite lookup_insert_eq. split; [by intros [? _]|]. intros [_ Hnot].
      exfalso. apply Hnot. by left.
    + rewrite lookup_insert_ne by done. split.
      * intros [? Hnot]. split; [done|]. intros [?|?]; [congruence|done].
      * intros [? Hnot]. split; [done|]. intros ?. apply Hnot. by right.
Qed.

Lemma createChallengeIdLookup_Some catalog key id :
  createChallengeIdLookup catalog !! key = Some id
  <-> exists j, id = Z.of_nat j + 1
        /\ (ChallengeKey <$> catalog) !! j = Some key
        /\ forall j', (j < j')%nat -> (ChallengeKey <$> catalog) !! j' <> Some key.
Proof.
  unfold createChallengeIdLookup. revert id.
  induction catalog as [|c catalog IH] using rev_ind; intros id.
  - simpl. rewrite lookup_empty. split; [done|]. by intros (j & _ & ? & _).
  - rewrite fillChallengeIdLookup_snoc, fmap_app. simpl.
    assert (Hlen : length (ChallengeKey <$> catalog) = length catalog)
      by apply length_fmap.
    destruct (decide (ChallengeKey c = key)) as [<-|Hne].
    + rewrite lookup_insert_eq. split.
      * intros [= <-]. exists (length catalog). split_and!; [done| |].
        -- rewrite lookup_app_r by lia. by rewrite Hlen, Nat.sub_diag.
        -- intros j' Hj'. rewrite lookup_ge_None_2; [done|].
           rewrite length_app, Hlen. simpl. lia.
      * intros (j & -> & Hj & Hlast). f_equal.
        destruct (decide (j = length catalog)) as [->|Hne]; [done|].
        assert (j < length catalog)%nat as Hlt.
        { apply lookup_lt_Some in Hj. rewrite length_app, Hlen in Hj. simpl in Hj. lia. }
        exfalso. apply (Hlast (length catalog) Hlt).
        rewrite lookup_app_r by lia. by rewrite Hlen, Nat.sub_diag.
    + rewrite lookup_insert_ne by done. rewrite IH. split.
      * intros (j & -> & Hj & Hlast). exists j. split_and!; [done| |].
        -- by apply lookup_app_l_Some.
        -- intros j' Hj'. destruct (decide (j' < length catalog)%nat) as [Hlt|Hge].
           ++ rewrite lookup_app_l by lia. by apply Hlast.
           ++ rewrite lookup_app_r by lia. rewrite Hlen.
              destruct (j' - length catalog)%nat; simpl; [congruence|done].
      * intros (j & -> & Hj & Hlast).
        assert (j < length catalog)%nat as Hlt.
        { destruct (decide (j < length catalog)%nat) as [|Hge]; [done|].
          rewrite lookup_app_r in Hj by lia. rewrite Hlen in Hj.
          destruct (j - length catalog)%nat; simpl in Hj; [congruence|done]. }
        exists j. split_and!; [done| |].
        -- by rewrite lookup_app_l in Hj by lia.
        -- intros j' Hj' Hkey. apply (Hlast j' Hj'). by apply lookup_app_l_Some.
Qed.

(** The id of a challenge key is one more than the index of its last
    occurrence in the catalog file: ids lie between 1 and the number of
    entries, different keys have different ids, and exactly the keys that
    do not occur have none. *)
Theorem createChallengeIdLookup_spec (catalog : list JuiceShopChallenge) :
  (forall key id,
     createChallengeIdLookup catalog !! key = Some id
     <-> exists j, id = Z.of_nat j + 1
           /\ (ChallengeKey <$> catalog) !! j = Some key
           /\ forall j', (j < j')%nat -> (ChallengeKey <$> catalog) !! j' <> Some key)
  /\ (forall key,
        createChallengeIdLookup catalog !! key = None
        <-> key ∉ ChallengeKey <$> catalog)
  /\ (forall key id, createChallengeIdLookup catalog !! key = Some id ->
        1 <= id <= Z.of_nat (length catalog))
  /\ (forall key1 key2 id,
        createChallengeIdLookup catalog !! key1 = Some id ->
        createChallengeIdLookup catalog !! key2 = Some id -> key1 = key2).
Proof.
  split_and!.
  - apply createChallengeIdLookup_Some.
  - intros key. unfold createChallengeIdLookup.
    rewrite fillChallengeIdLookup_None, lookup_empty. tauto.
  - intros key id (j & -> & Hj & _)%createChallengeIdLookup_Some.
    apply lookup_lt_Some in Hj. rewrite length_fmap in Hj. lia.
  - intros key1 key2 id (j1 & -> & Hj1 & _)%createChallengeIdLookup_Some
      (j2 & Heq & Hj2 & _)%createChallengeIdLookup_Some.
    assert (j1 = j2) as -> by lia. congruence.
Qed.

(** *** The instance API *)

Lemma solvedStatuses_fold data acc :
  fold_left
    (fun challengeStatus challenge =>
       if Api.Solved challenge
       then challengeStatus
            ++ [ {| Key := Api.Key challenge; SolvedAt := Api.UpdatedAt challenge |} ]
       else challengeStatus)
    data acc
  = acc ++ ((fun challenge =>
               {| Key := Api.Key challenge; SolvedAt := Api.UpdatedAt challenge |})
              <$> filter (fun challenge => Api.Solved challenge = true) data).
Proof.
  revert acc. induction data as [|c data IH]; intros acc; simpl.
  - by rewrite app_nil_r.
  - rewrite IH, filter_cons. destruct (Api.Solved c) eqn:Hsolved.
    + rewrite decide_True by done. by rewrite fmap_cons, <- app_assoc.
    + by rewrite decide_False by done.
Qed.

(** [getCurrentChallengeStatuses] fails unless the instance answers 200
    with a body that decodes; then it returns one entry (key, updated-at) for
    each solved challenge of the answer and for no other, in the order of the
    updated-at strings, entries with equal strings in the order of the
    answer. *)
Theorem getCurrentChallengeStatuses_spec
    (res : option (Api.Answer Api.ChallengeResponse)) :
  let solved (challengeResponse : Api.ChallengeResponse) :=
    (fun challenge =>
       {| Key := Api.Key challenge; SolvedAt := Api.UpdatedAt challenge |})
      <$> filter (fun challenge => Api.Solved challenge = true)
                 (Api.Data challengeResponse) in
  (forall challengeResponse,
     res = Some (Api.mkAnswer 200 (Some challengeResponse)) ->
     exists statuses,
       getCurrentChallengeStatuses res = Some statuses
       /\ statuses ≡ₚ solved challengeResponse
       /\ StronglySorted notLater statuses
       /\ forall solvedAt,
            filter (fun status => SolvedAt status = solvedAt) statuses
            = filter (fun status => SolvedAt status = solvedAt)
                     (solved challengeResponse))
  /\ ((forall challengeResponse,
         res <> Some (Api.mkAnswer 200 (Some challengeResponse))) ->
      getCurrentChallengeStatuses res = None).
Proof.
  intros solved. split.
  - intros challengeResponse ->. unfold getCurrentChallengeStatuses. simpl.
    eexists. split; [done|].
    unfold solvedStatuses. rewrite solvedStatuses_fold. simpl.
    apply sortStable_spec.
  - intros Hres. unfold getCurrentChallengeStatuses.
    destruct res as [[status [challengeResponse|]]|]; simpl; [|by destruct (status =? 200)|done].
    destruct (Z.eqb_spec status 200) as [->|]; [|done].
    by destruct (Hres challengeResponse).
Qed.

Section WorkerFacts.
Variable marshal : list ChallengeStatus -> string.
Variable encode : list Z -> option string.



End WorkerFacts.

Section WebhookMoreFacts.
Variable marshal : list ChallengeStatus -> string.
Variable unmarshal : string -> list ChallengeStatus * bool.

(** Whatever the request, the handler answers 200, 400 or 500, changes at
    most the deployment of the team of the request, keeps its labels and
    ready replicas, and neither adds nor removes a deployment. *)
Theorem webhookHandler_frame (cluster : Cluster) team body currentProgress :
  let result := webhookHandler marshal unmarshal cluster team body currentProgress in
  (StatusCode (fst result) = 200 \/ StatusCode (fst result) = 400
   \/ StatusCode (fst result) = 500)
  /\ (StatusCode (fst result) <> 200 -> snd result = cluster)
  /\ (forall name, name <> deploymentName team -> snd result !! name = cluster !! name)
  /\ (forall deployment, cluster !! deploymentName team = Some deployment ->
        exists deployment',
          snd result !! deploymentName team = Some deployment'
          /\ Labels deployment' = Labels deployment
          /\ ReadyReplicas deployment' = ReadyReplicas deployment)
  /\ (cluster !! deploymentName team = None -> snd result = cluster).
Proof.
  intros result. subst result. unfold webhookHandler.
  destruct body as [webhook|]; [|simpl; split_and!; eauto; done].
  destruct (cluster !! deploymentName team) as [deployment|] eqn:Hget;
    [|simpl; rewrite ?Hget; split_and!; eauto; done].
  assert (Hpersist : forall statuses findIt fixIt,
    (forall name, name <> deploymentName team ->
       PersistProgress marshal cluster team statuses findIt fixIt !! name = cluster !! name)
    /\ (forall deployment0, Some deployment = Some deployment0 ->
          exists deployment',
            PersistProgress marshal cluster team statuses findIt fixIt
              !! deploymentName team = Some deployment'
            /\ Labels deployment' = Labels deployment0
            /\ ReadyReplicas deployment' = ReadyReplicas deployment0)).
  { intros statuses findIt fixIt. split.
    - intros name Hne. by apply PersistProgress_other.
    - intros ? [= <-].
      destruct (PersistProgress_lookup marshal cluster team deployment statuses
                  findIt fixIt Hget) as (deployment' & ? & _ & _ & _ & ? & ?).
      by exists deployment'. }
  assert (Hsame :
    (forall name, name <> deploymentName team -> cluster !! name = cluster !! name)
    /\ (forall deployment0, Some deployment = Some deployment0 ->
          exists deployment',
            cluster !! deploymentName team = Some deployment'
            /\ Labels deployment' = Labels deployment0
            /\ ReadyReplicas deployment' = ReadyReplicas deployment0)).
  { split; [done|]. intros ? [= <-]. by exists deployment. }
  destruct (String.prefix "find-it-" _);
    [|destruct (String.prefix "fix-it-" _);
      [|destruct (solvedIn _ _)]];
    try destruct currentProgress; simpl;
    repeat match goal with
           | |- context [PersistProgress marshal cluster team ?a ?b ?c] =>
               destruct (Hpersist a b c) as [Hother Hteam];
               generalize dependent (PersistProgress marshal cluster team a b c);
               intros
           end;
    try destruct Hsame as [Hother Hteam];
    split_and!; auto; try done; try (intros Hne; by destruct Hne).
Qed.

(** For a key of neither bonus category that is not recorded, the handler
    persists the recorded entries in stable solved-at order with the new
    entry behind the last entry that is not solved later, and persists the
    two bonus codes the deployment held.  A recorded list that is in
    solved-at order keeps its order. *)
Theorem webhook_places_new_entry (cluster : Cluster) team webhook currentProgress
    deployment :
  let key := Challenge (Solution webhook) in
  let entry := {| Key := key; SolvedAt := IssuedOn (Solution webhook) |} in
  let old := persistedChallenges unmarshal deployment in
  cluster !! deploymentName team = Some deployment ->
  String.prefix "find-it-" key = false ->
  String.prefix "fix-it-" key = false ->
  solvedIn old key = false ->
  exists before after,
    sortStable old = before ++ after
    /\ (StronglySorted notLater old -> old = before ++ after)
    /\ Forall (fun status => statusLess entry status = true) after
    /\ (forall status, last before = Some status -> notLater status entry)
    /\ StronglySorted notLater (before ++ entry :: after)
    /\ snd (webhookHandler marshal unmarshal cluster team (Some webhook) currentProgress)
       = PersistProgress marshal cluster team (before ++ entry :: after)
           (index (Annotations deployment) annContinueCodeFindIt)
           (index (Annotations deployment) annContinueCodeFixIt).
Proof.
  intros key entry old Hget HfindIt HfixIt Hsolved.
  destruct (sortStable_snoc old entry) as (before & after & Hold & Hnew & Hafter & Hbefore).
  exists before, after. split_and!; [done| |done|done| |].
  - intros Hsorted. by rewrite <- Hold, sortStable_sorted_id.
  - rewrite <- Hnew. apply sortStable_spec.
  - unfold webhookHandler. rewrite Hget. fold key. rewrite HfindIt, HfixIt.
    fold old. rewrite Hsolved. simpl. fold entry. by rewrite Hnew.
Qed.

End WebhookMoreFacts.

End WatchdogMoreFacts.

(** * The further properties at concrete inputs *)

Module Examples.
Import Go Scoring ScoringFacts ScoringServiceFacts.

Lemma inOrder_iterates (scores : gmap string TeamScore) :
  Fixtures.inOrder scores ≡ₚ map_to_list scores.
Proof. reflexivity. Qed.

Lemma owaspCache_consistent : cacheConsistent Fixtures.owaspCache.
Proof.
  split.
  - vm_compute. reflexivity.
  - intros team t Ht. unfold Fixtures.owaspCache in Ht. cbn [currentScores] in Ht.
    apply lookup_singleton_Some in Ht as [<- <-]. vm_compute. reflexivity.
Qed.

Lemma same_location_normalised l (teamScores : list TeamScore) :
  Forall (fun t => loc (getLatestChallengeSolve (Challenges t)) = l) teamScores ->
  normalised teamScores.
Proof.
  rewrite Forall_forall. intros Hall a b Ha Hb. unfold sameLocation.
  by rewrite (Hall a Ha), (Hall b Hb).
Qed.

Lemma board_normalised : normalised Fixtures.board.
Proof. apply (same_location_normalised 0). repeat constructor. Qed.

Lemma handleEvent_always_stores_witness :
  exists s',
    handleEvent Fixtures.unmarshalProgress Fixtures.inOrder Fixtures.catalogX10Later
      (mkTime 7 0) (mkTime 8 0) Fixtures.owaspCache (Modified Fixtures.solvedX10)
    = Some s'
    /\ lastUpdate s' = mkTime 8 0
    /\ challengesMap s' = Fixtures.catalogX10
    /\ Score <$> currentScores s' !! index (Labels Fixtures.solvedX10) "team"
       = Some 50.
Proof.
  destruct (handleEvent_always_stores Fixtures.unmarshalProgress Fixtures.inOrder
              inOrder_iterates Fixtures.catalogX10Later (mkTime 7 0) (mkTime 8 0)
              Fixtures.owaspCache Fixtures.solvedX10 owaspCache_consistent)
    as (Hmodified & s' & Hadded & Hstamp & Hcatalog & _ & Hstored & _).
  exists s'. split_and!.
  - rewrite Hmodified. exact Hadded.
  - exact Hstamp.
  - exact Hcatalog.
  - rewrite Hstored. reflexivity.
Defined.

Lemma handleEvent_deleted_witness :
  exists s',
    handleEvent Fixtures.unmarshalProgress Fixtures.inOrder Fixtures.catalogX10
      (mkTime 7 0) (mkTime 8 0) Fixtures.owaspCache (Deleted Fixtures.solvedX10)
    = Some s'
    /\ currentScores s' !! "owasp"%string = None.
Proof.
  destruct (handleEvent_deleted Fixtures.unmarshalProgress Fixtures.inOrder
              inOrder_iterates Fixtures.catalogX10 (mkTime 7 0) (mkTime 8 0)
              Fixtures.owaspCache Fixtures.solvedX10)
    as (s' & Hdeleted & _ & _ & Hgone & _).
  exists s'. split; [exact Hdeleted|exact Hgone].
Defined.

Lemma watcher_keeps_cache_consistent_witness :
  exists s',
    startScoringWatcher Fixtures.unmarshalProgress Fixtures.inOrder
      (fst (NewScoringServiceWithInitialScores Fixtures.inOrder
              [mkJuiceShopChallenge "X10" 3] ∅ zeroTime))
      [ (Fixtures.catalogX10, mkTime 1 0, mkTime 2 0, Added Fixtures.solvedX10);
        (Fixtures.catalogX10Later, mkTime 3 0, mkTime 4 0,
         Modified Fixtures.solvedX10WithFindIt);
        (Fixtures.catalogX10Later, mkTime 5 0, mkTime 6 0,
         Deleted Fixtures.brokenAnnotation) ]
    = Some s'
    /\ cacheConsistent s'.
Proof.
  destruct (watcher_keeps_cache_consistent Fixtures.unmarshalProgress
              Fixtures.inOrder inOrder_iterates [mkJuiceShopChallenge "X10" 3] ∅
              zeroTime
              [ (Fixtures.catalogX10, mkTime 1 0, mkTime 2 0,
                 Added Fixtures.solvedX10);
                (Fixtures.catalogX10Later, mkTime 3 0, mkTime 4 0,
                 Modified Fixtures.solvedX10WithFindIt);
                (Fixtures.catalogX10Later, mkTime 5 0, mkTime 6 0,
                 Deleted Fixtures.brokenAnnotation) ])
    as (s' & Hs' & Hconsistent & _).
  exists s'. split; [exact Hs'|exact Hconsistent].
Defined.

Lemma StartingScoringWorker_spec_witness :
  StartingScoringWorker Fixtures.unmarshalProgress Fixtures.inOrder
    Fixtures.owaspCache
    [ Some [(Fixtures.catalogX10, mkTime 1 0, mkTime 2 0,
             Modified Fixtures.solvedX10)];
      None ]
  = None.
Proof.
  apply (StartingScoringWorker_spec Fixtures.unmarshalProgress Fixtures.inOrder
           inOrder_iterates Fixtures.owaspCache _ owaspCache_consistent).
  right. left.
Defined.

Lemma CalculateAndCacheScoreBoard_spec_witness :
  let result :=
    CalculateAndCacheScoreBoard Fixtures.unmarshalProgress Fixtures.inOrder
      Fixtures.owaspCache (inr [(mkTime 9 0, Fixtures.solvedX10WithFindIt)]) in
  lastUpdate (snd result) = zeroTime
  /\ exists score,
       currentScores (snd result) !! index (Labels Fixtures.solvedX10WithFindIt) "team"
       = Some score
       /\ LastUpdate score = mkTime 9 0
       /\ WaitForTeamUpdatesNewerThan
            {| teamScoreAt := fun _ => Some score;
               teamCtxDoneAt := None; teamPick := fun n => n |}
            (mkTime 5 0)
          = Some (Some score, 0).
Proof.
  intros result.
  destruct (CalculateAndCacheScoreBoard_spec Fixtures.unmarshalProgress
              Fixtures.inOrder inOrder_iterates Fixtures.owaspCache) as [_ Hlisted].
  destruct (Hlisted [(mkTime 9 0, Fixtures.solvedX10WithFindIt)])
    as (_ & Hstamp & _ & _ & Hentry & _).
  split; [exact Hstamp|].
  destruct (Hentry [] (mkTime 9 0) Fixtures.solvedX10WithFindIt [] eq_refl
              (Forall_nil_2 _))
    as (score & Hscore & _ & Hupdate & Hread).
  exists score. split_and!; [exact Hscore|exact Hupdate|].
  apply Hread; reflexivity.
Defined.

Lemma calculateScore_challenges_witness :
  Challenges (calculateScore Fixtures.unmarshalProgress zeroTime
                Fixtures.solvedX10 Fixtures.catalogX10)
  = [Fixtures.x10].
Proof.
  rewrite (calculateScore_challenges Fixtures.unmarshalProgress zeroTime
             Fixtures.solvedX10 Fixtures.catalogX10 [Fixtures.x10]).
  - vm_compute. reflexivity.
  - vm_compute. discriminate.
  - vm_compute. reflexivity.
Defined.

Lemma ranking_in_spec_order_when_normalised_witness :
  StronglySorted (fun a b => specLess b a = false)
                 (sortTeamsByScoreAndCalculatePositions Fixtures.board).
Proof.
  apply (ranking_in_spec_order_when_normalised Fixtures.board board_normalised).
Defined.

Lemma ranking_deterministic_when_normalised_witness :
  sortTeamsByScoreAndCalculatePositions Fixtures.board
  = sortTeamsByScoreAndCalculatePositions (rev Fixtures.board).
Proof.
  apply (ranking_deterministic_when_normalised Fixtures.board (rev Fixtures.board)).
  - apply Permutation_rev.
  - exact board_normalised.
  - apply (bool_decide_unpack _). vm_compute. exact I.
Defined.

Lemma WaitForTeamUpdatesNewerThan_spec_witness :
  WaitForTeamUpdatesNewerThan
    {| teamScoreAt := fun _ => Some Fixtures.owaspScore;
       teamCtxDoneAt := Some 120; teamPick := fun n => n |}
    zeroTime
  = Some (None, 120)
  /\ WaitForTeamUpdatesNewerThan
       {| teamScoreAt := fun _ => Some Fixtures.tieUTC;
          teamCtxDoneAt := None; teamPick := fun n => n |}
       (mkTime (-5) 0)
     = Some (Some Fixtures.tieUTC, 0).
Proof.
  split.
  - apply (WaitForTeamUpdatesNewerThan_spec
             {| teamScoreAt := fun _ => Some Fixtures.owaspScore;
                teamCtxDoneAt := Some 120; teamPick := fun n => n |} zeroTime).
    intros t score [= <-]. reflexivity.
  - apply (WaitForTeamUpdatesNewerThan_spec
             {| teamScoreAt := fun _ => Some Fixtures.tieUTC;
                teamCtxDoneAt := None; teamPick := fun n => n |} (mkTime (-5) 0));
      reflexivity.
Defined.

End Examples.

Module WatchdogExamples.
Import Go Watchdog WatchdogFacts WatchdogMoreFacts.



Lemma webhook_places_new_entry_witness :
  let webhook :=
    Fixtures.solved "errorHandlingChallenge" "2024-05-01T09:15:00.000Z" in
  exists before after,
    [Fixtures.scoreBoard] = before ++ after
    /\ snd (webhookHandler Fixtures.marshalStatuses Fixtures.unmarshalStatuses
              Fixtures.owaspCluster "owasp" (Some webhook) None)
       = PersistProgress Fixtures.marshalStatuses Fixtures.owaspCluster "owasp"
           (before ++ Fixtures.errorHandling :: after) "" "fixItCode1".
Proof.
  intros webhook.
  destruct (webhook_places_new_entry Fixtures.marshalStatuses
              Fixtures.unmarshalStatuses Fixtures.owaspCluster "owasp" webhook None
              Fixtures.owaspDeployment)
    as (before & after & Hold & _ & _ & _ & _ & Hpersisted).
  - vm_compute. reflexivity.
  - reflexivity.
  - reflexivity.
  - vm_compute. reflexivity.
  - exists before, after. split; [|exact Hpersisted].
    rewrite <- Hold. vm_compute. reflexivity.
Defined.

Lemma getCurrentChallengeStatuses_spec_witness :
  getCurrentChallengeStatuses Fixtures.scoreBoardSolved = Some [Fixtures.scoreBoard]
  /\ getCurrentChallengeStatuses (Some (Api.mkAnswer 503 None)) = None.
Proof.
  split.
  - destruct (getCurrentChallengeStatuses_spec Fixtures.scoreBoardSolved)
      as [Hok _].
    destruct (Hok _ eq_refl) as (statuses & Hstatuses & _).
    rewrite Hstatuses. vm_compute in Hstatuses. by injection Hstatuses as <-.
  - apply (getCurrentChallengeStatuses_spec (Some (Api.mkAnswer 503 None))).
    intros challengeResponse. discriminate.
Defined.

End WatchdogExamples.
